(** * LLD-Problems: the vehicle rental tracker and the PDF operation tracker

    A shallow embedding of [CarRental.py] and [ilovepdf/ilovepdf.py].

    Python objects that are mutated after they have been stored somewhere
    (a [Vehicle] held by a location list, an [Operation] held by the
    repository) live in an object table; a reference is the object's index
    in that table, and the containers of the program hold references.
    Dictionaries are [gmap]s. *)

From stdpp Require Import gmap strings list fin_maps pretty.

Open Scope Z_scope.

(** ** Part I: CarRental.py *)

Module CarRental.

(** [class User] *)
Module User.
Record t := mk { username : string; location : string }.
End User.

(** [class Vehicle]; the constructor sets [vehicleisavailable = True]. *)
Module Vehicle.
Record t := mk {
  vehicle_name : string;
  plate_number : string;
  vehicle_location : string;
  vehicleisavailable : bool
}.

Definition init (vehicle_name plate_number vehicle_location : string) : t :=
  mk vehicle_name plate_number vehicle_location true.

(** The assignment [vehicle.vehicleisavailable = b]. *)
Definition set_available (b : bool) (v : t) : t :=
  mk (vehicle_name v) (plate_number v) (vehicle_location v) b.
End Vehicle.

(** The three strings [booking.status] ever holds. *)
Inductive Status := BOOKED | RENTED | COMPLETED.

Definition Status_eqb (a b : Status) : bool :=
  match a, b with
  | BOOKED, BOOKED | RENTED, RENTED | COMPLETED, COMPLETED => true
  | _, _ => false
  end.

(** [class Booking]; [init] receives the value of the class attribute
    [Booking.booking_counter] read by the constructor. *)
Module Booking.
Record t := mk {
  booking_id : Z;
  username : string;
  vehicle_name : string;
  plate_number : string;
  location : string;
  status : Status
}.

Definition init (counter : Z) (user : User.t) (vehicle : Vehicle.t) : t :=
  mk counter (User.username user) (Vehicle.vehicle_name vehicle)
     (Vehicle.plate_number vehicle) (Vehicle.vehicle_location vehicle) BOOKED.

(** The assignment [booking.status = st]. *)
Definition set_status (st : Status) (b : t) : t :=
  mk (booking_id b) (username b) (vehicle_name b) (plate_number b) (location b) st.
End Booking.

(** The state of one [VehicleBookRentManager] together with the process-wide
    [Booking.booking_counter]:
    - [objects]: the [Vehicle] objects constructed so far, in construction
      order; a reference to a vehicle is its index here;
    - [vehicle_loc_hashmap]: [VehicleManager.vehicle_loc_hashmap], location to
      the list of (references to) vehicles added there;
    - [booking_records]: booking id to [Booking];
    - [booking_counter]: the next id the [Booking] constructor hands out. *)
Record System := mkSystem {
  objects : list Vehicle.t;
  vehicle_loc_hashmap : gmap string (list nat);
  booking_records : gmap Z Booking.t;
  booking_counter : Z
}.

(** A fresh manager in a fresh process: no vehicle, no booking, counter 1. *)
Definition init : System := mkSystem [] ∅ ∅ 1.

(** [Vehicle(vehicle_name, plate_number, vehicle_location)]: allocates the
    object and returns its reference. *)
Definition new_Vehicle (vehicle_name plate_number vehicle_location : string)
    (s : System) : nat * System :=
  (length (objects s),
   mkSystem (objects s ++ [Vehicle.init vehicle_name plate_number vehicle_location])
            (vehicle_loc_hashmap s) (booking_records s) (booking_counter s)).

(** [VehicleManager.getVehicles]: [dict.get(location, [])]. *)
Definition getVehicles (location : string) (s : System) : list nat :=
  default [] (vehicle_loc_hashmap s !! location).

(** [VehicleManager.addvehicle]:
    [setdefault(vehicle.vehicle_location, []).append(vehicle)], returns [True].
    A reference that designates no object does not arise in Python; the
    model then leaves the index as it is. *)
Definition addvehicle (vehicle : nat) (s : System) : bool * System :=
  match objects s !! vehicle with
  | Some v =>
      let loc := Vehicle.vehicle_location v in
      (true,
       mkSystem (objects s)
                (<[loc := getVehicles loc s ++ [vehicle]]> (vehicle_loc_hashmap s))
                (booking_records s) (booking_counter s))
  | None => (true, s)
  end.

(** The loop shape shared by the three service methods:
    [for vehicle in vehicles: if cond(vehicle): ...; return ...].
    It yields the first listed vehicle (reference and object) that satisfies
    [cond], scanning in list order. *)
Fixpoint first_match (cond : Vehicle.t → bool) (objs : list Vehicle.t)
    (vehicles : list nat) : option (nat * Vehicle.t) :=
  match vehicles with
  | [] => None
  | r :: rest =>
      match objs !! r with
      | Some vehicle =>
          if cond vehicle then Some (r, vehicle) else first_match cond objs rest
      | None => first_match cond objs rest
      end
  end.

(** [vehicle.vehicle_name == vehicle_name and vehicle.vehicleisavailable] *)
Definition bookable (vehicle_name : string) (vehicle : Vehicle.t) : bool :=
  String.eqb (Vehicle.vehicle_name vehicle) vehicle_name
  && Vehicle.vehicleisavailable vehicle.

(** [vehicle.plate_number == booking.plate_number and vehicle.vehicleisavailable] *)
Definition rentable (booking : Booking.t) (vehicle : Vehicle.t) : bool :=
  String.eqb (Vehicle.plate_number vehicle) (Booking.plate_number booking)
  && Vehicle.vehicleisavailable vehicle.

(** [vehicle.plate_number == booking.plate_number] *)
Definition same_plate (booking : Booking.t) (vehicle : Vehicle.t) : bool :=
  String.eqb (Vehicle.plate_number vehicle) (Booking.plate_number booking).

(** [VehicleBookRentManager.createBooking]: [Some id] for the id returned,
    [None] for Python's [None]. *)
Definition createBooking (user : User.t) (vehicle_name location : string)
    (s : System) : option Z * System :=
  match first_match (bookable vehicle_name) (objects s) (getVehicles location s) with
  | Some (_, vehicle) =>
      let booking := Booking.init (booking_counter s) user vehicle in
      (Some (Booking.booking_id booking),
       mkSystem (objects s) (vehicle_loc_hashmap s)
                (<[Booking.booking_id booking := booking]> (booking_records s))
                (booking_counter s + 1))
  | None => (None, s)
  end.

(** [VehicleBookRentManager.rentVehicle] *)
Definition rentVehicle (booking_id : Z) (s : System) : bool * System :=
  match booking_records s !! booking_id with
  | None => (false, s)
  | Some booking =>
      if negb (Status_eqb (Booking.status booking) BOOKED) then (false, s)
      else
        match first_match (rentable booking) (objects s)
                          (getVehicles (Booking.location booking) s) with
        | Some (r, vehicle) =>
            (true,
             mkSystem (<[r := Vehicle.set_available false vehicle]> (objects s))
                      (vehicle_loc_hashmap s)
                      (<[booking_id := Booking.set_status RENTED booking]> (booking_records s))
                      (booking_counter s))
        | None => (false, s)
        end
  end.

(** [VehicleBookRentManager.returnVehicle] *)
Definition returnVehicle (booking_id : Z) (s : System) : bool * System :=
  match booking_records s !! booking_id with
  | None => (false, s)
  | Some booking =>
      if negb (Status_eqb (Booking.status booking) RENTED) then (false, s)
      else
        match first_match (same_plate booking) (objects s)
                          (getVehicles (Booking.location booking) s) with
        | Some (r, vehicle) =>
            (true,
             mkSystem (<[r := Vehicle.set_available true vehicle]> (objects s))
                      (vehicle_loc_hashmap s)
                      (<[booking_id := Booking.set_status COMPLETED booking]> (booking_records s))
                      (booking_counter s))
        | None => (false, s)
        end
  end.

(** The calls a client makes on the system.  [AddVehicle n p l] is
    [addvehicle(Vehicle(n, p, l))], the way the script registers vehicles:
    the argument is a vehicle constructed for the call. *)
Inductive Call :=
  | AddVehicle (vehicle_name plate_number vehicle_location : string)
  | CreateBooking (user : User.t) (vehicle_name location : string)
  | RentVehicle (booking_id : Z)
  | ReturnVehicle (booking_id : Z).

Definition step (c : Call) (s : System) : System :=
  match c with
  | AddVehicle n p l => let '(r, s1) := new_Vehicle n p l s in snd (addvehicle r s1)
  | CreateBooking u n l => snd (createBooking u n l s)
  | RentVehicle b => snd (rentVehicle b s)
  | ReturnVehicle b => snd (returnVehicle b s)
  end.

(** The state after the calls [cs], made in order from state [s]. *)
Fixpoint run (cs : list Call) (s : System) : System :=
  match cs with
  | [] => s
  | c :: rest => run rest (step c s)
  end.

(** The plate numbers a call sequence registers. *)
Fixpoint added_plates (cs : list Call) : list string :=
  match cs with
  | [] => []
  | AddVehicle _ p _ :: rest => p :: added_plates rest
  | _ :: rest => added_plates rest
  end.

(** [booking] references plate [plate] and its status is RENTED. *)
Definition rented_for (plate : string) (booking : Booking.t) : bool :=
  String.eqb (Booking.plate_number booking) plate
  && Status_eqb (Booking.status booking) RENTED.

(** How many stored bookings reference [plate] with status RENTED. *)
Definition rented_count (plate : string) (records : gmap Z Booking.t) : nat :=
  map_fold (λ _ booking n, if rented_for plate booking then S n else n) 0%nat records.

(** The vehicles of the system are those listed in the location index. *)
Definition listed (s : System) (r : nat) (v : Vehicle.t) : Prop :=
  ∃ location, r ∈ getVehicles location s ∧ objects s !! r = Some v.

(** The availability invariant of the data model, for one state. *)
Definition availability_invariant (s : System) : Prop :=
  ∀ r v, listed s r v →
    (Vehicle.vehicleisavailable v = false
     ↔ rented_count (Vehicle.plate_number v) (booking_records s) = 1%nat).

(** The states the calls reach from the empty system. *)
Definition reachable (s : System) : Prop := ∃ cs, s = run cs init.

(** What every reachable state satisfies:
    - each constructed vehicle is listed under its own location;
    - each listed reference designates a vehicle of that location;
    - booking ids in use lie below the counter. *)
Record well_formed (s : System) : Prop := {
  wf_listed : ∀ r v,
    objects s !! r = Some v → r ∈ getVehicles (Vehicle.vehicle_location v) s;
  wf_index : ∀ location r,
    r ∈ getVehicles location s →
    ∃ v, objects s !! r = Some v ∧ Vehicle.vehicle_location v = location;
  wf_fresh : ∀ id b, booking_records s !! id = Some b → id < booking_counter s
}.

(** Distinct vehicles listed at [location] carry distinct plate numbers. *)
Definition plates_distinct_at (location : string) (s : System) : Prop :=
  ∀ r1 r2 v1 v2,
    r1 ∈ getVehicles location s → r2 ∈ getVehicles location s →
    objects s !! r1 = Some v1 → objects s !! r2 = Some v2 →
    Vehicle.plate_number v1 = Vehicle.plate_number v2 → r1 = r2.

(** What the states reached with pairwise distinct plate numbers satisfy:
    - no two vehicles share a plate number;
    - no two RENTED bookings reference the same plate number;
    - a RENTED booking's vehicle exists and is unavailable;
    - an unavailable vehicle has a RENTED booking on its plate number. *)
Record rental_consistent (s : System) : Prop := {
  rc_plates : ∀ r1 r2 v1 v2,
    objects s !! r1 = Some v1 → objects s !! r2 = Some v2 →
    Vehicle.plate_number v1 = Vehicle.plate_number v2 → r1 = r2;
  rc_single : ∀ id1 id2 b1 b2,
    booking_records s !! id1 = Some b1 → booking_records s !! id2 = Some b2 →
    Booking.status b1 = RENTED → Booking.status b2 = RENTED →
    Booking.plate_number b1 = Booking.plate_number b2 → id1 = id2;
  rc_vehicle : ∀ id b,
    booking_records s !! id = Some b → Booking.status b = RENTED →
    ∃ r v, objects s !! r = Some v
      ∧ Vehicle.plate_number v = Booking.plate_number b
      ∧ Vehicle.vehicleisavailable v = false;
  rc_booking : ∀ r v,
    objects s !! r = Some v → Vehicle.vehicleisavailable v = false →
    ∃ id b, booking_records s !! id = Some b
      ∧ Booking.status b = RENTED
      ∧ Booking.plate_number b = Vehicle.plate_number v
}.

(** The user and the vehicles of the script that closes CarRental.py. *)
Definition prateek : User.t := User.mk "prateek" "Bangalore".

Definition script_vehicles : list Call :=
  [AddVehicle "Car" "KA01" "Bangalore"; AddVehicle "Bike" "KA02" "Bangalore"].

(** The script up to its booking, and up to its rental. *)
Definition script_booked : list Call :=
  script_vehicles ++ [CreateBooking prateek "Car" "Bangalore"].

Definition script_rented : list Call := script_booked ++ [RentVehicle 1].

(** Booking [vehicle_name] at [location] in state [s], then renting and
    returning the booking, succeeds at each call and ends with the vehicle
    behind [r] available and the booking COMPLETED. *)
Definition cycle_restores (user : User.t) (vehicle_name location : string)
    (s : System) (r : nat) : Prop :=
  ∃ id s1 s2 s3 v' b,
    createBooking user vehicle_name location s = (Some id, s1)
    ∧ rentVehicle id s1 = (true, s2)
    ∧ returnVehicle id s2 = (true, s3)
    ∧ objects s3 !! r = Some v' ∧ Vehicle.vehicleisavailable v' = true
    ∧ booking_records s3 !! id = Some b ∧ Booking.status b = COMPLETED.

(** One vehicle named "Car", plate "KA01", at "Bangalore". *)
Definition single_car : list Call := [AddVehicle "Car" "KA01" "Bangalore"].

(** Two vehicles registered under one plate number, the first one rented. *)
Definition shared_plate : list Call :=
  [AddVehicle "Bike" "KA01" "Bangalore";
   CreateBooking prateek "Bike" "Bangalore";
   RentVehicle 1;
   AddVehicle "Car" "KA01" "Bangalore"].

(** *** Lifecycle order and what a call preserves *)

(** The position of a status in the lifecycle BOOKED, RENTED, COMPLETED. *)
Definition status_rank (st : Status) : nat :=
  match st with BOOKED => 0 | RENTED => 1 | COMPLETED => 2 end.

(** [b'] is [b] up to its status, which is the same or later. *)
Definition advanced (b b' : Booking.t) : Prop :=
  Booking.booking_id b' = Booking.booking_id b
  ∧ Booking.username b' = Booking.username b
  ∧ Booking.vehicle_name b' = Booking.vehicle_name b
  ∧ Booking.plate_number b' = Booking.plate_number b
  ∧ Booking.location b' = Booking.location b
  ∧ (status_rank (Booking.status b) ≤ status_rank (Booking.status b'))%nat.

(** [v'] is [v] up to its availability. *)
Definition same_vehicle (v v' : Vehicle.t) : Prop :=
  Vehicle.vehicle_name v' = Vehicle.vehicle_name v
  ∧ Vehicle.plate_number v' = Vehicle.plate_number v
  ∧ Vehicle.vehicle_location v' = Vehicle.vehicle_location v.

(** Every stored booking has its vehicle: one listed at the booking's
    location with the booking's plate number and vehicle name. *)
Definition bookings_backed (s : System) : Prop :=
  ∀ id b, booking_records s !! id = Some b →
    ∃ r v, r ∈ getVehicles (Booking.location b) s ∧ objects s !! r = Some v
      ∧ Vehicle.plate_number v = Booking.plate_number b
      ∧ Vehicle.vehicle_name v = Booking.vehicle_name b.

(** Whether reference [r] designates a vehicle whose location is [location]. *)
Definition located (s : System) (location : string) (r : nat) : bool :=
  match objects s !! r with
  | Some v => String.eqb (Vehicle.vehicle_location v) location
  | None => false
  end.

(** The index lists, per location, the vehicles of that location in the
    order of their construction. *)
Definition indexed (s : System) : Prop :=
  ∀ location,
    getVehicles location s
    = filter (λ r, located s location r = true) (seq 0 (length (objects s))).

(** The ids in use are 1, 2, ... up to the counter (excluded), and each
    booking is stored under its own id. *)
Definition ids_sequential (s : System) : Prop :=
  1 ≤ booking_counter s
  ∧ (∀ id, is_Some (booking_records s !! id) ↔ 1 ≤ id < booking_counter s)
  ∧ (∀ id b, booking_records s !! id = Some b → Booking.booking_id b = id).

(** *** [class UserVehicleManager] *)

(** The manager's service, its [user_bookings] dictionary, and the lines
    it has printed. *)
Record Facade := mkFacade {
  vehicle_book_rent_manager : System;
  user_bookings : gmap string (list Z);
  stdout : list string
}.

Definition new_Facade : Facade := mkFacade init ∅ [].

(** [Userbookvehicle].  The test [if booking_id:] is false for [None] and
    for the integer 0. *)
Definition Userbookvehicle (user : User.t) (vehicle_name location : string)
    (f : Facade) : option Z * Facade :=
  let '(booking_id, s) :=
    createBooking user vehicle_name location (vehicle_book_rent_manager f) in
  let failed :=
    (None, mkFacade s (user_bookings f) (stdout f ++ ["Booking failed"])) in
  match booking_id with
  | Some id =>
      if negb (id =? 0) then
        let username := User.username user in
        (Some id,
         mkFacade s
           (<[username := default [] (user_bookings f !! username) ++ [id]]>
              (user_bookings f))
           (stdout f ++ ["Vehicle booked successfully. Booking ID: " +:+ pretty id]))
      else failed
  | None => failed
  end.

(** [UserrentVehicle] *)
Definition UserrentVehicle (booking_id : Z) (f : Facade) : bool * Facade :=
  let '(ok, s) := rentVehicle booking_id (vehicle_book_rent_manager f) in
  if ok
  then (true, mkFacade s (user_bookings f) (stdout f ++ ["Vehicle rented successfully"]))
  else (false, mkFacade s (user_bookings f) (stdout f ++ ["Rent failed"])).

(** [UserreturnVehcile] *)
Definition UserreturnVehcile (booking_id : Z) (f : Facade) : bool * Facade :=
  let '(ok, s) := returnVehicle booking_id (vehicle_book_rent_manager f) in
  if ok
  then (true, mkFacade s (user_bookings f) (stdout f ++ ["Vehicle returned successfully"]))
  else (false, mkFacade s (user_bookings f) (stdout f ++ ["Return failed"])).

(** The calls of a client that books, rents and returns through the
    user-facing layer; [Register n p l] is
    [vehicle_manager.addvehicle(Vehicle(n, p, l))] on the manager's service. *)
Inductive FacadeCall :=
  | Register (vehicle_name plate_number vehicle_location : string)
  | Book (user : User.t) (vehicle_name location : string)
  | Rent (booking_id : Z)
  | Return (booking_id : Z).

Definition facade_step (c : FacadeCall) (f : Facade) : Facade :=
  match c with
  | Register n p l =>
      mkFacade (step (AddVehicle n p l) (vehicle_book_rent_manager f))
               (user_bookings f) (stdout f)
  | Book u n l => snd (Userbookvehicle u n l f)
  | Rent b => snd (UserrentVehicle b f)
  | Return b => snd (UserreturnVehcile b f)
  end.

Fixpoint facade_run (cs : list FacadeCall) (f : Facade) : Facade :=
  match cs with
  | [] => f
  | c :: rest => facade_run rest (facade_step c f)
  end.

(** The service call a user-facing call makes. *)
Definition service_call (c : FacadeCall) : Call :=
  match c with
  | Register n p l => AddVehicle n p l
  | Book u n l => CreateBooking u n l
  | Rent b => RentVehicle b
  | Return b => ReturnVehicle b
  end.

(** The script that closes CarRental.py, as calls on the user-facing layer. *)
Definition script : list FacadeCall :=
  [Register "Car" "KA01" "Bangalore"; Register "Bike" "KA02" "Bangalore";
   Book prateek "Car" "Bangalore"; Rent 1; Return 1].

(** How many lines a user-facing call prints. *)
Definition printed_lines (c : FacadeCall) : nat :=
  match c with Register _ _ _ => 0 | _ => 1 end.

(** [user_bookings] lists, for each username, exactly the ids of the stored
    bookings made under that name, each once. *)
Definition bookings_tracked (f : Facade) : Prop :=
  ∀ username,
    NoDup (default [] (user_bookings f !! username))
    ∧ ∀ id, id ∈ default [] (user_bookings f !! username)
        ↔ ∃ b, booking_records (vehicle_book_rent_manager f) !! id = Some b
            ∧ Booking.username b = username.

(** One car booked twice. *)
Definition double_booked : list Call :=
  single_car ++ [CreateBooking prateek "Car" "Bangalore";
                 CreateBooking prateek "Car" "Bangalore"].

(** A user-facing layer whose service has one car and, as no sequence of
    calls on a new process produces, the booking counter at 0. *)
Definition zero_counter : Facade :=
  mkFacade
    (mkSystem [Vehicle.init "Car" "KA01" "Bangalore"] {["Bangalore" := [0%nat]]} ∅ 0)
    ∅ [].

End CarRental.

(** ** Part II: ilovepdf/ilovepdf.py *)

Module ILovePdf.

Close Scope Z_scope.

(** [class OperationType(Enum)] *)
Inductive OperationType := MERGE | COMPRESS | WATERMARK.

(** [class OperationStatus(Enum)] *)
Inductive OperationStatus := PENDING | COMPLETED | FAILED.

Definition OperationStatus_eqb (a b : OperationStatus) : bool :=
  match a, b with
  | PENDING, PENDING | COMPLETED, COMPLETED | FAILED, FAILED => true
  | _, _ => false
  end.

(** [class User] *)
Module User.
Record t := mk { username : string }.
End User.

(** [class PDFDocument]: [pages] is a list of page tokens of any type. *)
Module PDFDocument.
Record t (Page : Type) := mk { id : string; name : string; pages : list Page }.
Arguments mk {Page} _ _ _.
Arguments id {Page} _.
Arguments name {Page} _.
Arguments pages {Page} _.
End PDFDocument.

(** [class Operation]; [init] receives the uuid string the constructor drew.
    [output_file] is [None] until [mark_completed] stores a document. *)
Module Operation.
Record t (Page : Type) := mk {
  id : string;
  user : string;
  type : OperationType;
  input_files : list (PDFDocument.t Page);
  output_file : option (PDFDocument.t Page);
  status : OperationStatus
}.
Arguments mk {Page} _ _ _ _ _ _.
Arguments id {Page} _.
Arguments user {Page} _.
Arguments type {Page} _.
Arguments input_files {Page} _.
Arguments output_file {Page} _.
Arguments status {Page} _.

Definition init {Page} (uuid : string) (user : User.t) (op_type : OperationType)
    (input_files : list (PDFDocument.t Page)) : t Page :=
  mk uuid (User.username user) op_type input_files None PENDING.

Definition mark_completed {Page} (output : PDFDocument.t Page) (op : t Page) : t Page :=
  mk (id op) (user op) (type op) (input_files op) (Some output) COMPLETED.

Definition mark_failed {Page} (op : t Page) : t Page :=
  mk (id op) (user op) (type op) (input_files op) (output_file op) FAILED.
End Operation.

(** What [raise] throws: an instance of a class derived from
    [BaseException].  [is_Exception] tells whether the class derives from
    [Exception], which is what a clause [except Exception] tests; it is
    false for [SystemExit], [KeyboardInterrupt], [GeneratorExit] and for a
    class a program derives from [BaseException] directly. *)
Record BaseException := mkBaseException {
  class_name : string;
  is_Exception : bool
}.

Definition ValueError : BaseException := mkBaseException "ValueError" true.

Definition SystemError : BaseException := mkBaseException "SystemError" true.

Definition SystemExit : BaseException := mkBaseException "SystemExit" false.

(** How a call ends: it returns a value or raises. *)
Inductive Outcome (A : Type) :=
  | Returns (a : A)
  | Raises (e : BaseException).
Arguments Returns {A} _.
Arguments Raises {A} _.

(** Code whose only effect is to draw from [uuid.uuid4]: it reads the number
    of draws made so far and leaves the new number. *)
Definition Gen (A : Type) : Type := nat → Outcome A * nat.

(** The interface of [self.pdf_service]: the three transformation methods
    the manager calls.  An implementation may raise. *)
Class Service (Page : Type) := {
  svc_merge : PDFDocument.t Page → PDFDocument.t Page → Gen (PDFDocument.t Page);
  svc_compress : PDFDocument.t Page → Gen (PDFDocument.t Page);
  svc_add_watermark :
    PDFDocument.t Page → option (nat * nat) → Gen (PDFDocument.t Page)
}.

(** [class PDFService], the implementation the manager instantiates. *)
Module PDFService.
Section PDFService.
Context {Page : Type}.
(** [uuid4 n] is the string of the [n]-th draw of [uuid.uuid4]. *)
Variable uuid4 : nat → string.

(** [PDFDocument(name, pages)]: the constructor draws the document's id. *)
Definition new_PDFDocument (name : string) (pages : list Page) : Gen (PDFDocument.t Page) :=
  λ n, (Returns (PDFDocument.mk (uuid4 n) name pages), S n).

Definition merge (pdf1 pdf2 : PDFDocument.t Page) : Gen (PDFDocument.t Page) :=
  let merged_pages := PDFDocument.pages pdf1 ++ PDFDocument.pages pdf2 in
  new_PDFDocument "merged.pdf" merged_pages.

Definition compress (pdf : PDFDocument.t Page) : Gen (PDFDocument.t Page) :=
  λ n, (Returns pdf, n).

Definition add_watermark (pdf : PDFDocument.t Page) (page_range : option (nat * nat))
    : Gen (PDFDocument.t Page) :=
  λ n, (Returns pdf, n).

#[export] Instance service : Service Page :=
  {| svc_merge := merge; svc_compress := compress; svc_add_watermark := add_watermark |}.
End PDFService.
End PDFService.

(** The state the manager's methods act on:
    - [uuid_draws]: how many times [uuid.uuid4] has been called;
    - [op_objects]: the [Operation] objects constructed so far; a reference
      to an operation is its index here;
    - [operations]: [OperationRepository.operations], id to (reference to)
      operation;
    - [user_operations]: [UserPdfManager.user_operations]. *)
Record World (Page : Type) := mkWorld {
  uuid_draws : nat;
  op_objects : list (Operation.t Page);
  operations : gmap string nat;
  user_operations : gmap string (list string)
}.
Arguments mkWorld {Page} _ _ _ _.
Arguments uuid_draws {Page} _.
Arguments op_objects {Page} _.
Arguments operations {Page} _.
Arguments user_operations {Page} _.

(** A repository and a manager just created, after [n] earlier draws. *)
Definition new_world {Page} (n : nat) : World Page := mkWorld n [] ∅ ∅.

(** Stateful code that may raise: a state and error monad over [World]. *)
Definition M (Page A : Type) : Type := World Page → Outcome A * World Page.

#[export] Instance M_ret {Page} : MRet (M Page) := λ A a w, (Returns a, w).

#[export] Instance M_bind {Page} : MBind (M Page) := λ A B k m w,
  match m w with
  | (Returns a, w') => k a w'
  | (Raises e, w') => (Raises e, w')
  end.

(** [try: body  except Exception: handler].  The handler runs for an
    instance of [Exception]; anything else raised by the body goes on to the
    caller. *)
Definition try_except {Page A} (body : M Page A) (handler : M Page A) : M Page A :=
  λ w, match body w with
       | (Returns a, w') => (Returns a, w')
       | (Raises e, w') => if is_Exception e then handler w' else (Raises e, w')
       end.

(** Running uuid-drawing code in the world. *)
Definition draw {Page A} (g : Gen A) : M Page A :=
  λ w, let '(o, n) := g (uuid_draws w) in
       (o, mkWorld n (op_objects w) (operations w) (user_operations w)).

(** Allocating a new [Operation] object. *)
Definition alloc {Page} (op : Operation.t Page) : M Page nat :=
  λ w, (Returns (length (op_objects w)),
        mkWorld (uuid_draws w) (op_objects w ++ [op]) (operations w) (user_operations w)).

(** Reading an attribute of the operation a reference designates.  No
    Python execution holds a reference without an object; the model raises
    [SystemError] for one. *)
Definition attr {Page A} (f : Operation.t Page → A) (operation : nat) : M Page A :=
  λ w, match op_objects w !! operation with
       | Some op => (Returns (f op), w)
       | None => (Raises SystemError, w)
       end.

(** Mutating the operation a reference designates. *)
Definition mutate {Page} (f : Operation.t Page → Operation.t Page) (operation : nat)
    : M Page unit :=
  λ w, match op_objects w !! operation with
       | Some op =>
           (Returns (),
            mkWorld (uuid_draws w) (<[operation := f op]> (op_objects w))
                    (operations w) (user_operations w))
       | None => (Raises SystemError, w)
       end.

(** [class OperationRepository] *)
Module OperationRepository.
Section OperationRepository.
Context {Page : Type}.

Definition set_operations (f : gmap string nat → gmap string nat) : M Page unit :=
  λ w, (Returns (),
        mkWorld (uuid_draws w) (op_objects w) (f (operations w)) (user_operations w)).

(** [self.operations[operation.id] = operation] *)
Definition save (operation : nat) : M Page unit :=
  id ← attr Operation.id operation;
  set_operations (λ operations, <[id := operation]> operations).

(** [self.operations.get(operation_id)]: the reference, or [None]. *)
Definition get (operation_id : string) (w : World Page) : option nat :=
  operations w !! operation_id.
End OperationRepository.
End OperationRepository.

(** [class UserPdfManager], for the manager of [user] over service [svc]. *)
Module UserPdfManager.
Section UserPdfManager.
Context {Page : Type} `{svc : !Service Page}.
Variable uuid4 : nat → string.
Variable user : User.t.

(** [Operation(self.user, op_type, input_files)]: draws the id, allocates
    the object, returns its reference. *)
Definition new_Operation (op_type : OperationType)
    (input_files : list (PDFDocument.t Page)) : M Page nat :=
  uuid ← draw (λ n, (Returns (uuid4 n), S n));
  alloc (Operation.init uuid user op_type input_files).

Definition set_user_operations
    (f : gmap string (list string) → gmap string (list string)) : M Page unit :=
  λ w, (Returns (),
        mkWorld (uuid_draws w) (op_objects w) (operations w) (f (user_operations w))).

(** [save], then [self.user_operations.setdefault(username, []).append(operation.id)] *)
Definition _record_operation (operation : nat) : M Page unit :=
  OperationRepository.save operation;;
  id ← attr Operation.id operation;
  set_user_operations (λ user_operations,
    let username := User.username user in
    <[username := default [] (user_operations !! username) ++ [id]]> user_operations).

Definition merge_pdf (pdf1 pdf2 : PDFDocument.t Page) : M Page string :=
  operation ← new_Operation MERGE [pdf1; pdf2];
  _record_operation operation;;
  try_except
    (result ← draw (svc_merge pdf1 pdf2);
     mutate (Operation.mark_completed result) operation)
    (mutate Operation.mark_failed operation);;
  attr Operation.id operation.

Definition compress_pdf (pdf : PDFDocument.t Page) : M Page string :=
  operation ← new_Operation COMPRESS [pdf];
  _record_operation operation;;
  try_except
    (result ← draw (svc_compress pdf);
     mutate (Operation.mark_completed result) operation)
    (mutate Operation.mark_failed operation);;
  attr Operation.id operation.

Definition add_watermark (pdf : PDFDocument.t Page) (page_range : option (nat * nat))
    : M Page string :=
  operation ← new_Operation WATERMARK [pdf];
  _record_operation operation;;
  try_except
    (result ← draw (svc_add_watermark pdf page_range);
     mutate (Operation.mark_completed result) operation)
    (mutate Operation.mark_failed operation);;
  attr Operation.id operation.

(** [download_result]: it reads the world and returns the stored output or
    Python's [None]. *)
Definition download_result (operation_id : string) (w : World Page)
    : option (PDFDocument.t Page) :=
  match OperationRepository.get operation_id w with
  | Some operation =>
      match op_objects w !! operation with
      | Some op =>
          if OperationStatus_eqb (Operation.status op) COMPLETED
          then Operation.output_file op
          else None
      | None => None
      end
  | None => None
  end.
End UserPdfManager.
End UserPdfManager.

(** The three operation requests of the manager's interface. *)
Inductive Request (Page : Type) :=
  | MergePdf (pdf1 pdf2 : PDFDocument.t Page)
  | CompressPdf (pdf : PDFDocument.t Page)
  | AddWatermark (pdf : PDFDocument.t Page) (page_range : option (nat * nat)).
Arguments MergePdf {Page} _ _.
Arguments CompressPdf {Page} _.
Arguments AddWatermark {Page} _ _.

(** The calls a client makes on one manager. *)
Inductive Call (Page : Type) :=
  | Perform (q : Request Page)
  | DownloadResult (operation_id : string).
Arguments Perform {Page} _.
Arguments DownloadResult {Page} _.

Section Calls.
Context {Page : Type} `{svc : !Service Page}.
Variable uuid4 : nat → string.
Variable user : User.t.

(** The type and the input files the request's method gives its [Operation]. *)
Definition request_type (q : Request Page) : OperationType :=
  match q with
  | MergePdf _ _ => MERGE
  | CompressPdf _ => COMPRESS
  | AddWatermark _ _ => WATERMARK
  end.

Definition request_inputs (q : Request Page) : list (PDFDocument.t Page) :=
  match q with
  | MergePdf pdf1 pdf2 => [pdf1; pdf2]
  | CompressPdf pdf => [pdf]
  | AddWatermark pdf _ => [pdf]
  end.

(** The service call the request's method makes. *)
Definition request_service (q : Request Page) : Gen (PDFDocument.t Page) :=
  match q with
  | MergePdf pdf1 pdf2 => svc_merge pdf1 pdf2
  | CompressPdf pdf => svc_compress pdf
  | AddWatermark pdf page_range => svc_add_watermark pdf page_range
  end.

(** The manager method the request stands for. *)
Definition perform (q : Request Page) : M Page string :=
  match q with
  | MergePdf pdf1 pdf2 => UserPdfManager.merge_pdf uuid4 user pdf1 pdf2
  | CompressPdf pdf => UserPdfManager.compress_pdf uuid4 user pdf
  | AddWatermark pdf page_range => UserPdfManager.add_watermark uuid4 user pdf page_range
  end.

Definition step (c : Call Page) (w : World Page) : World Page :=
  match c with
  | Perform q => snd (perform q w)
  | DownloadResult _ => w
  end.

(** The world after the calls [cs], made in order from world [w]. *)
Fixpoint run (cs : list (Call Page)) (w : World Page) : World Page :=
  match cs with
  | [] => w
  | c :: rest => run rest (step c w)
  end.

(** The world once a request's method has constructed and recorded its
    operation: the point where it calls the service. *)
Definition recorded (q : Request Page) (w : World Page) : World Page :=
  let id := uuid4 (uuid_draws w) in
  let username := User.username user in
  mkWorld (S (uuid_draws w))
    (op_objects w ++ [Operation.init id user (request_type q) (request_inputs q)])
    (<[id := length (op_objects w)]> (operations w))
    (<[username := default [] (user_operations w !! username) ++ [id]]>
       (user_operations w)).
End Calls.

(** The operation the repository holds under [operation_id], if any. *)
Definition stored {Page} (operation_id : string) (w : World Page)
    : option (Operation.t Page) :=
  match OperationRepository.get operation_id w with
  | Some operation => op_objects w !! operation
  | None => None
  end.

(** [w] with [n] draws made and the object behind [operation] replaced. *)
Definition settled {Page} (n : nat) (operation : nat) (op : Operation.t Page)
    (w : World Page) : World Page :=
  mkWorld n (<[operation := op]> (op_objects w)) (operations w) (user_operations w).

(** A service whose methods raise: transformations that fail. *)
Definition failing_service {Page} : Service Page :=
  {| svc_merge := λ _ _ n, (Raises ValueError, n);
     svc_compress := λ _ n, (Raises ValueError, n);
     svc_add_watermark := λ _ _ n, (Raises ValueError, n) |}.

(** A service whose methods end the interpreter: they raise [SystemExit],
    which is not an instance of [Exception]. *)
Definition exiting_service {Page} : Service Page :=
  {| svc_merge := λ _ _ n, (Raises SystemExit, n);
     svc_compress := λ _ n, (Raises SystemExit, n);
     svc_add_watermark := λ _ _ n, (Raises SystemExit, n) |}.

(** The script that closes ilovepdf.py: a generator whose [n]-th draw is the
    numeral of [n], the user, the two documents (ids from draws 0 and 1) and
    the world after the upload (draw 2) in which [merge_pdf] is called. *)
Definition script_uuid4 (n : nat) : string := pretty n.

Definition alex : User.t := User.mk "alex".

Definition file1 : PDFDocument.t nat := PDFDocument.mk "0" "file1.pdf" [1; 2; 3].

Definition file2 : PDFDocument.t nat := PDFDocument.mk "1" "file2.pdf" [4; 5].

Definition script_world : World nat := new_world 3.

Definition script_calls : list (Call nat) :=
  [Perform (MergePdf file1 file2); DownloadResult "3"].

(** Every [Operation] object has an output exactly when it is COMPLETED. *)
Definition output_iff_completed {Page} (w : World Page) : Prop :=
  ∀ operation op,
    op_objects w !! operation = Some op →
    (Operation.output_file op ≠ None ↔ Operation.status op = COMPLETED).

(** No [Operation] object is PENDING. *)
Definition all_settled {Page} (w : World Page) : Prop :=
  ∀ operation op,
    op_objects w !! operation = Some op → Operation.status op ≠ PENDING.

(** *** File storage *)

(** The state of a [FileManager] and of the [UserFileManager] of one user
    over it, with the number of [uuid.uuid4] draws made so far:
    [storage] is [FileManager.storage], [user_files] is
    [UserFileManager.user_files]. *)
Record Files (File : Type) := mkFiles {
  files_draws : nat;
  storage : gmap string File;
  user_files : gmap string (list string)
}.
Arguments mkFiles {File} _ _ _.
Arguments files_draws {File} _.
Arguments storage {File} _.
Arguments user_files {File} _.

(** A file manager and a user file manager just created, after [n] draws. *)
Definition new_Files {File} (n : nat) : Files File := mkFiles n ∅ ∅.

(** [class FileManager] *)
Module FileManager.
Section FileManager.
Context {File : Type}.
Variable uuid4 : nat → string.

Definition upload (file_obj : File) (fs : Files File) : string * Files File :=
  let file_id := uuid4 (files_draws fs) in
  (file_id,
   mkFiles (S (files_draws fs)) (<[file_id := file_obj]> (storage fs)) (user_files fs)).

(** [self.storage.get(file_id)] *)
Definition download (file_id : string) (fs : Files File) : option File :=
  storage fs !! file_id.
End FileManager.
End FileManager.

(** [class UserFileManager], for the manager of [user]. *)
Module UserFileManager.
Section UserFileManager.
Context {File : Type}.
Variable uuid4 : nat → string.
Variable user : User.t.

Definition upload_file (file_obj : File) (fs : Files File) : string * Files File :=
  let '(file_id, fs1) := FileManager.upload uuid4 file_obj fs in
  let username := User.username user in
  (file_id,
   mkFiles (files_draws fs1) (storage fs1)
     (<[username := default [] (user_files fs1 !! username) ++ [file_id]]>
        (user_files fs1))).

Definition download_file (file_id : string) (fs : Files File) : option File :=
  FileManager.download file_id fs.
End UserFileManager.
End UserFileManager.

(** What touches the file state: an upload, a download, or a draw of
    [uuid.uuid4] made elsewhere in the process (a document or an operation
    being constructed). *)
Inductive FileCall (File : Type) :=
  | UploadFile (file_obj : File)
  | DownloadFile (file_id : string)
  | Uuid4.
Arguments UploadFile {File} _.
Arguments DownloadFile {File} _.
Arguments Uuid4 {File}.

Section FileCalls.
Context {File : Type}.
Variable uuid4 : nat → string.
Variable user : User.t.

Definition files_step (c : FileCall File) (fs : Files File) : Files File :=
  match c with
  | UploadFile file_obj => snd (UserFileManager.upload_file uuid4 user file_obj fs)
  | DownloadFile _ => fs
  | Uuid4 => mkFiles (S (files_draws fs)) (storage fs) (user_files fs)
  end.

Fixpoint files_run (cs : list (FileCall File)) (fs : Files File) : Files File :=
  match cs with
  | [] => fs
  | c :: rest => files_run rest (files_step c fs)
  end.

(** The files a call sequence uploads, in order. *)
Fixpoint uploaded (cs : list (FileCall File)) : list File :=
  match cs with
  | [] => []
  | UploadFile file_obj :: rest => file_obj :: uploaded rest
  | _ :: rest => uploaded rest
  end.
End FileCalls.

(** *** Counting requests; services that only draw *)

(** How many operation requests a call sequence makes. *)
Fixpoint requests {Page} (cs : list (Call Page)) : nat :=
  match cs with
  | [] => 0
  | Perform _ :: rest => S (requests rest)
  | DownloadResult _ :: rest => requests rest
  end.

(** Whatever a service call raises is an instance of [Exception]. *)
Definition raises_only_Exception {Page} `{svc : !Service Page} : Prop :=
  ∀ (q : Request Page) n e n',
    request_service q n = (Raises e, n') → is_Exception e = true.

(** A service call never lowers the number of draws made: whatever it
    does, it can only draw. *)
Definition draws_forward {Page} `{svc : !Service Page} : Prop :=
  ∀ (q : Request Page) n, n ≤ (request_service q n).2.

(** [user_operations] holds one entry, the manager's user, listing the ids of
    the operations in the order they were constructed; every operation
    carries that user's name. *)
Definition operations_listed {Page} (user : User.t) (w : World Page) : Prop :=
  default [] (user_operations w !! User.username user) = Operation.id <$> op_objects w
  ∧ (∀ username, username ≠ User.username user → user_operations w !! username = None)
  ∧ Forall (λ op, Operation.user op = User.username user) (op_objects w).

(** The repository maps the id of each operation to that operation: every
    operation constructed can be fetched under its id, and every entry leads
    to an operation with that id. *)
Definition repository_exact {Page} (w : World Page) : Prop :=
  (∀ operation op, op_objects w !! operation = Some op →
     stored (Operation.id op) w = Some op)
  ∧ (∀ operation_id op, stored operation_id w = Some op →
       Operation.id op = operation_id).

End ILovePdf.

(** * Properties of CarRental.py *)

Module CarRentalFacts.
Import CarRental.
Open Scope Z_scope.

(** *** Basic facts about the scan and the predicates *)

Lemma Status_eqb_eq a b : Status_eqb a b = true ↔ a = b.
Proof. destruct a, b; simpl; split; (done || discriminate). Qed.

Lemma bookable_true vehicle_name v :
  bookable vehicle_name v = true
  ↔ Vehicle.vehicle_name v = vehicle_name ∧ Vehicle.vehicleisavailable v = true.
Proof. unfold bookable. by rewrite andb_true_iff, String.eqb_eq. Qed.

Lemma rentable_true booking v :
  rentable booking v = true
  ↔ Vehicle.plate_number v = Booking.plate_number booking
    ∧ Vehicle.vehicleisavailable v = true.
Proof. unfold rentable. by rewrite andb_true_iff, String.eqb_eq. Qed.

Lemma same_plate_true booking v :
  same_plate booking v = true
  ↔ Vehicle.plate_number v = Booking.plate_number booking.
Proof. unfold same_plate. by rewrite String.eqb_eq. Qed.

Lemma rented_for_true plate booking :
  rented_for plate booking = true
  ↔ Booking.plate_number booking = plate ∧ Booking.status booking = RENTED.
Proof. unfold rented_for. by rewrite andb_true_iff, String.eqb_eq, Status_eqb_eq. Qed.

(** A successful scan stops at the first listed vehicle satisfying [cond]. *)
Lemma first_match_Some cond objs vehicles r v :
  first_match cond objs vehicles = Some (r, v) →
  ∃ l1 l2, vehicles = l1 ++ r :: l2 ∧ objs !! r = Some v ∧ cond v = true
    ∧ ∀ r' v', r' ∈ l1 → objs !! r' = Some v' → cond v' = false.
Proof.
  induction vehicles as [|r0 rest IH]; simpl; [done|].
  destruct (objs !! r0) as [v0|] eqn:Hr0.
  - destruct (cond v0) eqn:Hc.
    + intros [= <- <-]. exists [], rest. split_and!; try done.
      intros r' v' Hin. by apply elem_of_nil in Hin.
    + intros (l1 & l2 & -> & Hv & Hcv & Hbefore)%IH.
      exists (r0 :: l1), l2. split_and!; try done.
      intros r' v' [->|Hin]%elem_of_cons Hr'; [congruence|eauto].
  - intros (l1 & l2 & -> & Hv & Hcv & Hbefore)%IH.
    exists (r0 :: l1), l2. split_and!; try done.
    intros r' v' [->|Hin]%elem_of_cons Hr'; [congruence|eauto].
Qed.

(** Conversely, the scan of [l1 ++ r :: l2] yields [r] when nothing in [l1]
    satisfies [cond] and [r] does. *)
Lemma first_match_split cond objs l1 r l2 v :
  objs !! r = Some v → cond v = true →
  (∀ r' v', r' ∈ l1 → objs !! r' = Some v' → cond v' = false) →
  first_match cond objs (l1 ++ r :: l2) = Some (r, v).
Proof.
  intros Hv Hc. induction l1 as [|r0 l1 IH]; simpl; intros Hbefore.
  - by rewrite Hv, Hc.
  - destruct (objs !! r0) as [v0|] eqn:Hr0.
    + rewrite (Hbefore r0 v0) by (done || apply elem_of_cons; auto).
      apply IH. intros r' v' Hin. apply Hbefore, elem_of_cons. auto.
    + apply IH. intros r' v' Hin. apply Hbefore, elem_of_cons. auto.
Qed.

(** The scan fails exactly when no listed vehicle satisfies [cond]. *)
Lemma first_match_None cond objs vehicles :
  first_match cond objs vehicles = None
  ↔ ∀ r v, r ∈ vehicles → objs !! r = Some v → cond v = false.
Proof.
  induction vehicles as [|r0 rest IH]; simpl.
  - split; [|done]. intros _ r v Hin. by apply elem_of_nil in Hin.
  - destruct (objs !! r0) as [v0|] eqn:Hr0.
    + destruct (cond v0) eqn:Hc.
      * split; [done|]. intros H. specialize (H r0 v0).
        rewrite Hc in H. discriminate H; [apply elem_of_cons; auto|done].
      * rewrite IH. split.
        -- intros H r v [->|Hin]%elem_of_cons Hr; [congruence|eauto].
        -- intros H r v Hin. apply H, elem_of_cons. auto.
    + rewrite IH. split.
      * intros H r v [->|Hin]%elem_of_cons Hr; [congruence|eauto].
      * intros H r v Hin. apply H, elem_of_cons. auto.
Qed.

(** Some listed vehicle satisfies [cond]: the scan succeeds. *)
Lemma first_match_is_Some cond objs vehicles r v :
  r ∈ vehicles → objs !! r = Some v → cond v = true →
  ∃ r0 v0, first_match cond objs vehicles = Some (r0, v0).
Proof.
  intros Hin Hv Hc.
  destruct (first_match cond objs vehicles) as [[r0 v0]|] eqn:Hfm; [eauto|].
  rewrite first_match_None in Hfm. rewrite (Hfm r v Hin Hv) in Hc. discriminate.
Qed.


(** *** Counting RENTED bookings *)

Lemma rented_count_empty plate : rented_count plate ∅ = 0%nat.
Proof. unfold rented_count. apply map_fold_empty. Qed.

Lemma rented_count_insert plate id b (records : gmap Z Booking.t) :
  records !! id = None →
  rented_count plate (<[id := b]> records)
  = if rented_for plate b then S (rented_count plate records)
    else rented_count plate records.
Proof.
  intros Hfresh. unfold rented_count.
  rewrite map_fold_insert_L; [done| |done].
  intros j1 j2 z1 z2 y _ _ _.
  by destruct (rented_for plate z1), (rented_for plate z2).
Qed.

Lemma rented_count_zero plate (records : gmap Z Booking.t) :
  rented_count plate records = 0%nat
  ↔ ∀ id b, records !! id = Some b → rented_for plate b = false.
Proof.
  induction records as [|i x m Hi IH] using map_ind.
  - rewrite rented_count_empty. split; [|done].
    intros _ id b. by rewrite lookup_empty.
  - rewrite rented_count_insert by done. split.
    + destruct (rented_for plate x) eqn:Hx; [done|].
      intros Hm id b. destruct (decide (id = i)) as [->|Hne].
      * rewrite lookup_insert_eq. congruence.
      * rewrite lookup_insert_ne by done. by apply IH.
    + intros Hall. rewrite (Hall i x) by apply lookup_insert_eq.
      apply IH. intros id b Hb. apply (Hall id).
      rewrite lookup_insert_ne; [done|]. congruence.
Qed.

(** The count is 1 exactly when one booking, and no other, is RENTED on
    the plate. *)
Lemma rented_count_one plate (records : gmap Z Booking.t) :
  rented_count plate records = 1%nat
  ↔ ∃ id b, records !! id = Some b ∧ rented_for plate b = true
      ∧ ∀ id' b', records !! id' = Some b' → rented_for plate b' = true → id' = id.
Proof.
  induction records as [|i x m Hi IH] using map_ind.
  - rewrite rented_count_empty. split; [done|].
    intros (id & b & Hb & _). by rewrite lookup_empty in Hb.
  - rewrite rented_count_insert by done.
    destruct (rented_for plate x) eqn:Hx.
    + split.
      * intros [= Hzero]. rewrite rented_count_zero in Hzero.
        exists i, x. split_and!; [apply lookup_insert_eq|done|].
        intros id' b'. destruct (decide (id' = i)) as [->|Hne]; [done|].
        rewrite lookup_insert_ne by done. intros Hb' Hr.
        rewrite (Hzero _ _ Hb') in Hr. discriminate.
      * intros (id & b & Hb & Hr & Huniq). f_equal.
        apply rented_count_zero. intros id' b' Hb'.
        destruct (rented_for plate b') eqn:Hr'; [|done].
        assert (id' ≠ i) as Hne by congruence.
        assert (i = id) as <- by (apply (Huniq i x); [apply lookup_insert_eq|done]).
        exfalso. apply Hne, (Huniq id' b'); [|done].
        by rewrite lookup_insert_ne.
    + rewrite IH. split.
      * intros (id & b & Hb & Hr & Huniq).
        assert (id ≠ i) as Hne by congruence.
        exists id, b. split_and!; [by rewrite lookup_insert_ne|done|].
        intros id' b'. destruct (decide (id' = i)) as [->|Hne'].
        -- rewrite lookup_insert_eq. congruence.
        -- rewrite lookup_insert_ne by done. apply Huniq.
      * intros (id & b & Hb & Hr & Huniq).
        assert (id ≠ i) as Hne.
        { intros ->. rewrite lookup_insert_eq in Hb. congruence. }
        rewrite lookup_insert_ne in Hb by done.
        exists id, b. split_and!; [done..|].
        intros id' b' Hb' Hr'. apply (Huniq id' b'); [|done].
        rewrite lookup_insert_ne; [done|]. congruence.
Qed.

(** *** What a call does to the state *)

Lemma step_AddVehicle n p l s :
  step (AddVehicle n p l) s
  = mkSystem (objects s ++ [Vehicle.init n p l])
             (<[l := getVehicles l s ++ [length (objects s)]]> (vehicle_loc_hashmap s))
             (booking_records s) (booking_counter s).
Proof.
  unfold step, new_Vehicle, addvehicle. simpl.
  rewrite list_lookup_middle by done. done.
Qed.

Lemma createBooking_inv user vehicle_name location s res s' :
  createBooking user vehicle_name location s = (res, s') →
  (res = None ∧ s' = s)
  ∨ ∃ r v, r ∈ getVehicles location s ∧ objects s !! r = Some v
      ∧ Vehicle.vehicle_name v = vehicle_name
      ∧ Vehicle.vehicleisavailable v = true
      ∧ res = Some (booking_counter s)
      ∧ s' = mkSystem (objects s) (vehicle_loc_hashmap s)
               (<[booking_counter s := Booking.init (booking_counter s) user v]>
                  (booking_records s))
               (booking_counter s + 1).
Proof.
  unfold createBooking.
  destruct (first_match _ _ _) as [[r v]|] eqn:Hfm; intros [= <- <-]; [|by left].
  apply first_match_Some in Hfm as (l1 & l2 & Hl & Hv & Hc & _).
  apply bookable_true in Hc as [Hname Havail].
  right. exists r, v. split_and!; try done.
  rewrite Hl. apply elem_of_app. right. apply elem_of_cons. auto.
Qed.

Lemma rentVehicle_inv booking_id s ok s' :
  rentVehicle booking_id s = (ok, s') →
  (ok = false ∧ s' = s)
  ∨ ∃ b r v, booking_records s !! booking_id = Some b
      ∧ Booking.status b = BOOKED
      ∧ r ∈ getVehicles (Booking.location b) s ∧ objects s !! r = Some v
      ∧ Vehicle.plate_number v = Booking.plate_number b
      ∧ Vehicle.vehicleisavailable v = true
      ∧ ok = true
      ∧ s' = mkSystem (<[r := Vehicle.set_available false v]> (objects s))
               (vehicle_loc_hashmap s)
               (<[booking_id := Booking.set_status RENTED b]> (booking_records s))
               (booking_counter s).
Proof.
  unfold rentVehicle.
  destruct (booking_records s !! booking_id) as [b|] eqn:Hb; [|intros [= <- <-]; by left].
  destruct (negb _) eqn:Hst; [intros [= <- <-]; by left|].
  apply negb_false_iff, Status_eqb_eq in Hst.
  destruct (first_match _ _ _) as [[r v]|] eqn:Hfm; intros [= <- <-]; [|by left].
  apply first_match_Some in Hfm as (l1 & l2 & Hl & Hv & Hc & _).
  apply rentable_true in Hc as [Hplate Havail].
  right. exists b, r, v. split_and!; try done.
  rewrite Hl. apply elem_of_app. right. apply elem_of_cons. auto.
Qed.

Lemma returnVehicle_inv booking_id s ok s' :
  returnVehicle booking_id s = (ok, s') →
  (ok = false ∧ s' = s)
  ∨ ∃ b r v, booking_records s !! booking_id = Some b
      ∧ Booking.status b = RENTED
      ∧ r ∈ getVehicles (Booking.location b) s ∧ objects s !! r = Some v
      ∧ Vehicle.plate_number v = Booking.plate_number b
      ∧ ok = true
      ∧ s' = mkSystem (<[r := Vehicle.set_available true v]> (objects s))
               (vehicle_loc_hashmap s)
               (<[booking_id := Booking.set_status COMPLETED b]> (booking_records s))
               (booking_counter s).
Proof.
  unfold returnVehicle.
  destruct (booking_records s !! booking_id) as [b|] eqn:Hb; [|intros [= <- <-]; by left].
  destruct (negb _) eqn:Hst; [intros [= <- <-]; by left|].
  apply negb_false_iff, Status_eqb_eq in Hst.
  destruct (first_match _ _ _) as [[r v]|] eqn:Hfm; intros [= <- <-]; [|by left].
  apply first_match_Some in Hfm as (l1 & l2 & Hl & Hv & Hc & _).
  apply same_plate_true in Hc.
  right. exists b, r, v. split_and!; try done.
  rewrite Hl. apply elem_of_app. right. apply elem_of_cons. auto.
Qed.

(** *** The three service methods *)

(** C2 -- [createBooking] scans the location's list in order; at the first
    vehicle whose name matches and that is available it stores a BOOKED
    booking under the id it returns (the current counter), and when no listed
    vehicle qualifies it returns [None] and stores nothing.  Neither case
    changes a vehicle: the objects and the index stay as they were. *)
Theorem createBooking_first_available user vehicle_name location s :
  (∀ l1 r l2 v,
     getVehicles location s = l1 ++ r :: l2 →
     objects s !! r = Some v →
     Vehicle.vehicle_name v = vehicle_name →
     Vehicle.vehicleisavailable v = true →
     (∀ r' v', r' ∈ l1 → objects s !! r' = Some v' →
        ¬ (Vehicle.vehicle_name v' = vehicle_name
           ∧ Vehicle.vehicleisavailable v' = true)) →
     ∃ id s',
       createBooking user vehicle_name location s = (Some id, s')
       ∧ id = booking_counter s
       ∧ booking_records s' =
           <[id := Booking.mk id (User.username user) (Vehicle.vehicle_name v)
                     (Vehicle.plate_number v) (Vehicle.vehicle_location v) BOOKED]>
             (booking_records s)
       ∧ objects s' = objects s
       ∧ vehicle_loc_hashmap s' = vehicle_loc_hashmap s)
  ∧ ((∀ r v, r ∈ getVehicles location s → objects s !! r = Some v →
        ¬ (Vehicle.vehicle_name v = vehicle_name
           ∧ Vehicle.vehicleisavailable v = true)) →
     createBooking user vehicle_name location s = (None, s)).
Proof.
  split.
  - intros l1 r l2 v Hl Hv Hname Havail Hbefore.
    assert (first_match (bookable vehicle_name) (objects s) (getVehicles location s)
            = Some (r, v)) as Hfm.
    { rewrite Hl. apply first_match_split; [done|by apply bookable_true|].
      intros r' v' Hin Hr'. apply not_true_is_false. rewrite bookable_true. eauto. }
    unfold createBooking. rewrite Hfm. simpl. eauto 10.
  - intros Hnone. unfold createBooking.
    assert (first_match (bookable vehicle_name) (objects s) (getVehicles location s)
            = None) as ->; [|done].
    apply first_match_None. intros r v Hin Hr.
    apply not_true_is_false. rewrite bookable_true. eauto.
Qed.

(** A failed [rentVehicle] leaves the system as it was. *)
Lemma rentVehicle_false booking_id s s' :
  rentVehicle booking_id s = (false, s') → s' = s.
Proof.
  unfold rentVehicle.
  destruct (booking_records s !! booking_id) as [b|]; [|congruence].
  destruct (negb _); [congruence|].
  destruct (first_match _ _ _) as [[r v]|]; congruence.
Qed.

(** C3 -- [rentVehicle] fails, changing nothing, when the booking is absent
    or its status is not BOOKED.  Otherwise it scans the vehicles of the
    booking's location for the booking's plate number and requires
    availability: at the first listed vehicle with that plate that is
    available it sets [vehicleisavailable] to false, sets the booking to
    RENTED and returns true; when no listed vehicle with that plate is
    available it fails and changes nothing.  A second [rentVehicle] on the
    same booking id, right after a first one (whatever the first returned),
    returns false and leaves the whole state unchanged. *)
Theorem rentVehicle_guarded booking_id s :
  (booking_records s !! booking_id = None → rentVehicle booking_id s = (false, s))
  ∧ (∀ b, booking_records s !! booking_id = Some b →
       Booking.status b ≠ BOOKED → rentVehicle booking_id s = (false, s))
  ∧ (∀ b l1 r l2 v,
       booking_records s !! booking_id = Some b →
       Booking.status b = BOOKED →
       getVehicles (Booking.location b) s = l1 ++ r :: l2 →
       objects s !! r = Some v →
       Vehicle.plate_number v = Booking.plate_number b →
       Vehicle.vehicleisavailable v = true →
       (∀ r' v', r' ∈ l1 → objects s !! r' = Some v' →
          ¬ (Vehicle.plate_number v' = Booking.plate_number b
             ∧ Vehicle.vehicleisavailable v' = true)) →
       rentVehicle booking_id s =
         (true,
          mkSystem
            (<[r := Vehicle.mk (Vehicle.vehicle_name v) (Vehicle.plate_number v)
                      (Vehicle.vehicle_location v) false]> (objects s))
            (vehicle_loc_hashmap s)
            (<[booking_id := Booking.mk (Booking.booking_id b) (Booking.username b)
                      (Booking.vehicle_name b) (Booking.plate_number b)
                      (Booking.location b) RENTED]> (booking_records s))
            (booking_counter s)))
  ∧ (∀ b, booking_records s !! booking_id = Some b →
       Booking.status b = BOOKED →
       (∀ r v, r ∈ getVehicles (Booking.location b) s → objects s !! r = Some v →
          ¬ (Vehicle.plate_number v = Booking.plate_number b
             ∧ Vehicle.vehicleisavailable v = true)) →
       rentVehicle booking_id s = (false, s))
  ∧ rentVehicle booking_id (rentVehicle booking_id s).2
    = (false, (rentVehicle booking_id s).2).
Proof.
  split_and!.
  - intros Hb. unfold rentVehicle. by rewrite Hb.
  - intros b Hb Hst. unfold rentVehicle. rewrite Hb.
    destruct (Booking.status b); done.
  - intros b l1 r l2 v Hb Hst Hl Hv Hplate Havail Hbefore.
    unfold rentVehicle. rewrite Hb, Hst, Hl. simpl.
    erewrite first_match_split; [done|done|by apply rentable_true|].
    intros r' v' Hin Hr'. apply not_true_is_false. rewrite rentable_true. eauto.
  - intros b Hb Hst Hnone. unfold rentVehicle. rewrite Hb, Hst. simpl.
    assert (first_match (rentable b) (objects s) (getVehicles (Booking.location b) s)
            = None) as ->; [|done].
    apply first_match_None. intros r v Hin Hr.
    apply not_true_is_false. rewrite rentable_true. eauto.
  - destruct (rentVehicle booking_id s) as [ok s1] eqn:Hfirst. simpl.
    destruct ok.
    + revert Hfirst. unfold rentVehicle at 1.
      destruct (booking_records s !! booking_id) as [b|]; [|congruence].
      destruct (negb _); [congruence|].
      destruct (first_match _ _ _) as [[r v]|]; [|congruence].
      intros [= <-]. unfold rentVehicle. simpl. by rewrite lookup_insert_eq.
    + pose proof (rentVehicle_false _ _ _ Hfirst) as ->. exact Hfirst.
Qed.

(** C4 -- [returnVehicle] fails, changing nothing, when the booking is
    absent or its status is not RENTED; a booking still BOOKED is such a
    case, so returning before renting changes no vehicle.  Otherwise it scans
    the vehicles of the booking's location for the booking's plate number,
    whatever their availability: at the first listed vehicle with that plate
    it sets [vehicleisavailable] to true, sets the booking to COMPLETED and
    returns true; when the location lists no vehicle with that plate it
    fails and changes nothing. *)
Theorem returnVehicle_guarded booking_id s :
  (booking_records s !! booking_id = None → returnVehicle booking_id s = (false, s))
  ∧ (∀ b, booking_records s !! booking_id = Some b →
       Booking.status b ≠ RENTED → returnVehicle booking_id s = (false, s))
  ∧ (∀ b, booking_records s !! booking_id = Some b →
       Booking.status b = BOOKED →
       returnVehicle booking_id s = (false, s)
       ∧ objects (returnVehicle booking_id s).2 = objects s)
  ∧ (∀ b l1 r l2 v,
       booking_records s !! booking_id = Some b →
       Booking.status b = RENTED →
       getVehicles (Booking.location b) s = l1 ++ r :: l2 →
       objects s !! r = Some v →
       Vehicle.plate_number v = Booking.plate_number b →
       (∀ r' v', r' ∈ l1 → objects s !! r' = Some v' →
          Vehicle.plate_number v' ≠ Booking.plate_number b) →
       returnVehicle booking_id s =
         (true,
          mkSystem
            (<[r := Vehicle.mk (Vehicle.vehicle_name v) (Vehicle.plate_number v)
                      (Vehicle.vehicle_location v) true]> (objects s))
            (vehicle_loc_hashmap s)
            (<[booking_id := Booking.mk (Booking.booking_id b) (Booking.username b)
                      (Booking.vehicle_name b) (Booking.plate_number b)
                      (Booking.location b) COMPLETED]> (booking_records s))
            (booking_counter s)))
  ∧ (∀ b, booking_records s !! booking_id = Some b →
       Booking.status b = RENTED →
       (∀ r v, r ∈ getVehicles (Booking.location b) s → objects s !! r = Some v →
          Vehicle.plate_number v ≠ Booking.plate_number b) →
       returnVehicle booking_id s = (false, s)).
Proof.
  assert (∀ b, booking_records s !! booking_id = Some b →
            Booking.status b ≠ RENTED → returnVehicle booking_id s = (false, s))
    as Hguard.
  { intros b Hb Hst. unfold returnVehicle. rewrite Hb.
    destruct (Booking.status b); done. }
  split_and!.
  - intros Hb. unfold returnVehicle. by rewrite Hb.
  - exact Hguard.
  - intros b Hb Hst. rewrite (Hguard b Hb) by (rewrite Hst; discriminate). done.
  - intros b l1 r l2 v Hb Hst Hl Hv Hplate Hbefore.
    unfold returnVehicle. rewrite Hb, Hst, Hl. simpl.
    erewrite first_match_split; [done|done|by apply same_plate_true|].
    intros r' v' Hin Hr'. apply not_true_is_false. rewrite same_plate_true. eauto.
  - intros b Hb Hst Hnone. unfold returnVehicle. rewrite Hb, Hst. simpl.
    assert (first_match (same_plate b) (objects s) (getVehicles (Booking.location b) s)
            = None) as ->; [|done].
    apply first_match_None. intros r v Hin Hr.
    apply not_true_is_false. rewrite same_plate_true. eauto.
Qed.

(** *** Invariants of the reachable states *)

Lemma getVehicles_insert location l refs objs index records counter :
  getVehicles location (mkSystem objs (<[l := refs]> index) records counter)
  = if decide (l = location) then refs
    else getVehicles location (mkSystem objs index records counter).
Proof. unfold getVehicles. simpl. rewrite lookup_insert. by case_decide. Qed.

(** Replacing an object by one of the same location keeps the index sound. *)
Lemma well_formed_update s r v v' records :
  well_formed s →
  objects s !! r = Some v →
  Vehicle.vehicle_location v' = Vehicle.vehicle_location v →
  (∀ id b, records !! id = Some b → id < booking_counter s) →
  well_formed (mkSystem (<[r := v']> (objects s)) (vehicle_loc_hashmap s)
                        records (booking_counter s)).
Proof.
  intros [Hlisted Hindex Hfresh] Hv Hloc Hrec.
  assert (r < length (objects s))%nat as Hlt by (by eapply lookup_lt_Some).
  split; simpl.
  - intros r' w [(<- & <- & _)|[Hne Hw]]%list_lookup_insert_Some.
    + rewrite Hloc. by apply (Hlisted r v).
    + by apply (Hlisted r' w).
  - intros location r' (w & Hw & Hwl)%Hindex.
    destruct (decide (r' = r)) as [->|Hne].
    + exists v'. rewrite list_lookup_insert_eq by done. split; [done|]. congruence.
    + exists w. by rewrite list_lookup_insert_ne.
  - done.
Qed.

Lemma step_well_formed c s : well_formed s → well_formed (step c s).
Proof.
  intros Hwf. destruct c as [n p l|u n l|id|id]; [|unfold step..].
  - rewrite step_AddVehicle. destruct Hwf as [Hlisted Hindex Hfresh].
    split; simpl.
    + intros r v [[Hlt Hv]|[-> <-]]%lookup_snoc_Some;
        rewrite getVehicles_insert; case_decide as Hl.
      * apply elem_of_app. left. rewrite Hl. by apply (Hlisted r v).
      * by apply (Hlisted r v).
      * apply elem_of_app. right. by apply list_elem_of_singleton.
      * done.
    + intros location r. rewrite getVehicles_insert. case_decide as Hl.
      * intros [Hin|Hin%list_elem_of_singleton]%elem_of_app.
        -- apply Hindex in Hin as (v & Hv & Hvl). exists v. split; [|congruence].
           rewrite lookup_app_l; [done|]. by eapply lookup_lt_Some.
        -- subst r. exists (Vehicle.init n p l). split; [|done].
           by apply list_lookup_middle.
      * intros (v & Hv & Hvl)%Hindex. exists v. split; [|done].
        rewrite lookup_app_l; [done|]. by eapply lookup_lt_Some.
    + done.
  - destruct (createBooking u n l s) as [res s'] eqn:Hc. simpl.
    apply createBooking_inv in Hc as [[_ ->]|(r & v & _ & _ & _ & _ & _ & ->)]; [done|].
    destruct Hwf as [Hlisted Hindex Hfresh]. split; simpl; [done..|].
    intros id b [[<- _]|[_ Hb]]%lookup_insert_Some; [lia|].
    apply Hfresh in Hb. lia.
  - destruct (rentVehicle id s) as [ok s'] eqn:Hc. simpl.
    apply rentVehicle_inv in Hc
      as [[_ ->]|(b & r & v & Hb & _ & _ & Hv & _ & _ & _ & ->)]; [done|].
    apply (well_formed_update s r v); [done..|].
    intros id' b' [[<- _]|[_ Hb']]%lookup_insert_Some; by eapply wf_fresh.
  - destruct (returnVehicle id s) as [ok s'] eqn:Hc. simpl.
    apply returnVehicle_inv in Hc
      as [[_ ->]|(b & r & v & Hb & _ & _ & Hv & _ & _ & ->)]; [done|].
    apply (well_formed_update s r v); [done..|].
    intros id' b' [[<- _]|[_ Hb']]%lookup_insert_Some; by eapply wf_fresh.
Qed.

Lemma init_well_formed : well_formed init.
Proof.
  split; simpl.
  - intros r v. by rewrite lookup_nil.
  - intros location r. unfold getVehicles. simpl. rewrite lookup_empty. simpl.
    by intros ?%elem_of_nil.
  - intros id b. by rewrite lookup_empty.
Qed.

Lemma run_well_formed cs s : well_formed s → well_formed (run cs s).
Proof.
  revert s. induction cs as [|c cs IH]; simpl; [done|].
  intros s Hwf. by apply IH, step_well_formed.
Qed.

Lemma reachable_well_formed s : reachable s → well_formed s.
Proof. intros [cs ->]. apply run_well_formed, init_well_formed. Qed.

(** An availability update keeps every object's plate number. *)
Lemma lookup_set_available (objs : list Vehicle.t) r v a r' w :
  objs !! r = Some v →
  <[r := Vehicle.set_available a v]> objs !! r' = Some w →
  (r' = r ∧ w = Vehicle.set_available a v) ∨ (r' ≠ r ∧ objs !! r' = Some w).
Proof.
  intros Hv [(<- & <- & _)|[Hne Hw]]%list_lookup_insert_Some; [by left|].
  right. split; [congruence|done].
Qed.

Lemma lookup_set_available_plate (objs : list Vehicle.t) r v a r' w :
  objs !! r = Some v →
  <[r := Vehicle.set_available a v]> objs !! r' = Some w →
  ∃ w0, objs !! r' = Some w0 ∧ Vehicle.plate_number w0 = Vehicle.plate_number w.
Proof.
  intros Hv [[-> ->]|[_ Hw]]%(lookup_set_available _ _ _ _ _ _ Hv); eauto.
Qed.

Lemma step_rental_consistent c s :
  well_formed s → rental_consistent s →
  (∀ n p l r v, c = AddVehicle n p l → objects s !! r = Some v →
     Vehicle.plate_number v ≠ p) →
  rental_consistent (step c s).
Proof.
  intros Hwf [Hplates Hsingle Hvehicle Hbooking] Hnew.
  destruct c as [n p l|u n l|id|id]; [|unfold step..].
  - rewrite step_AddVehicle. split; simpl.
    + intros r1 r2 v1 v2 [[_ H1]|[-> <-]]%lookup_snoc_Some
        [[_ H2]|[-> <-]]%lookup_snoc_Some Hp.
      * by apply (Hplates r1 r2 v1 v2).
      * by destruct (Hnew n p l r1 v1).
      * by destruct (Hnew n p l r2 v2).
      * done.
    + done.
    + intros id b Hb Hst. destruct (Hvehicle id b Hb Hst) as (r & v & Hv & ?).
      exists r, v. split; [|done].
      rewrite lookup_app_l; [done|]. by eapply lookup_lt_Some.
    + intros r v [[_ Hv]|[-> <-]]%lookup_snoc_Some Ha; [eauto|done].
  - destruct (createBooking u n l s) as [res s'] eqn:Hc. simpl.
    apply createBooking_inv in Hc as [[_ ->]|(r & v & _ & _ & _ & _ & _ & ->)]; [done|].
    assert (booking_records s !! booking_counter s = None) as Hfresh.
    { destruct (booking_records s !! booking_counter s) as [b|] eqn:Hb; [|done].
      apply (wf_fresh s Hwf) in Hb. lia. }
    split; simpl.
    + done.
    + intros id1 id2 b1 b2 [[<- <-]|[_ H1]]%lookup_insert_Some
        [[<- <-]|[_ H2]]%lookup_insert_Some; try done.
      by apply Hsingle.
    + intros id b [[<- <-]|[_ Hb]]%lookup_insert_Some; [done|]. by apply (Hvehicle id b).
    + intros r' v' Hv' Ha. destruct (Hbooking r' v' Hv' Ha) as (id & b & Hb & ?).
      exists id, b. split; [|done].
      rewrite lookup_insert_ne; [done|]. congruence.
  - destruct (rentVehicle id s) as [ok s'] eqn:Hc. simpl.
    apply rentVehicle_inv in Hc
      as [[_ ->]|(b & r & v & Hb & Hst & _ & Hv & Hp & Ha & _ & ->)]; [done|].
    assert (r < length (objects s))%nat as Hlt by (by eapply lookup_lt_Some).
    split; simpl.
    + intros r1 r2 v1 v2
        (w1 & H1 & <-)%(lookup_set_available_plate _ _ _ _ _ _ Hv)
        (w2 & H2 & <-)%(lookup_set_available_plate _ _ _ _ _ _ Hv).
      by apply Hplates.
    + assert (∀ id' b', booking_records s !! id' = Some b' →
                Booking.status b' = RENTED →
                Booking.plate_number b' ≠ Booking.plate_number b) as Hother.
      { intros id' b' Hb' Hst' Heq.
        destruct (Hvehicle id' b' Hb' Hst') as (r0 & v0 & Hv0 & Hp0 & Ha0).
        assert (r0 = r) as -> by (apply (Hplates r0 r v0 v); congruence).
        congruence. }
      intros id1 id2 b1 b2 [[<- <-]|[_ H1]]%lookup_insert_Some
        [[<- <-]|[_ H2]]%lookup_insert_Some; simpl; try done.
      * intros _ Hst2 Heq. by destruct (Hother id2 b2).
      * intros Hst1 _ Heq. by destruct (Hother id1 b1).
      * by apply Hsingle.
    + intros id' b' [[<- <-]|[_ Hb']]%lookup_insert_Some Hst'.
      * exists r, (Vehicle.set_available false v).
        by rewrite list_lookup_insert_eq.
      * destruct (Hvehicle id' b' Hb' Hst') as (r0 & v0 & Hv0 & Hp0 & Ha0).
        exists r0, v0. split; [|done].
        rewrite list_lookup_insert_ne; [done|]. congruence.
    + intros r' w [[-> ->]|[Hne Hw]]%(lookup_set_available _ _ _ _ _ _ Hv) Haw.
      * exists id, (Booking.set_status RENTED b).
        by rewrite lookup_insert_eq.
      * destruct (Hbooking r' w Hw Haw) as (id0 & b0 & Hb0 & Hst0 & Hp0).
        exists id0, b0. split; [|done].
        rewrite lookup_insert_ne; [done|]. congruence.
  - destruct (returnVehicle id s) as [ok s'] eqn:Hc. simpl.
    apply returnVehicle_inv in Hc
      as [[_ ->]|(b & r & v & Hb & Hst & _ & Hv & Hp & _ & ->)]; [done|].
    split; simpl.
    + intros r1 r2 v1 v2
        (w1 & H1 & <-)%(lookup_set_available_plate _ _ _ _ _ _ Hv)
        (w2 & H2 & <-)%(lookup_set_available_plate _ _ _ _ _ _ Hv).
      by apply Hplates.
    + intros id1 id2 b1 b2 [[<- <-]|[_ H1]]%lookup_insert_Some
        [[<- <-]|[_ H2]]%lookup_insert_Some; simpl; try done.
      by apply Hsingle.
    + intros id' b' [[<- <-]|[Hne Hb']]%lookup_insert_Some Hst'; [done|].
      destruct (Hvehicle id' b' Hb' Hst') as (r0 & v0 & Hv0 & Hp0 & Ha0).
      exists r0, v0. split; [|done].
      rewrite list_lookup_insert_ne; [done|]. intros ->.
      apply Hne. apply (Hsingle id id' b b'); congruence.
    + intros r' w [[-> ->]|[Hne Hw]]%(lookup_set_available _ _ _ _ _ _ Hv) Haw; [done|].
      destruct (Hbooking r' w Hw Haw) as (id0 & b0 & Hb0 & Hst0 & Hp0).
      exists id0, b0. split; [|done].
      rewrite lookup_insert_ne; [done|]. intros <-.
      apply Hne. apply (Hplates r' r w v); congruence.
Qed.

(** A call creates no plate number except the one [AddVehicle] registers. *)
Lemma step_object_plate c s r v :
  objects (step c s) !! r = Some v →
  (∃ v0, objects s !! r = Some v0
     ∧ Vehicle.plate_number v0 = Vehicle.plate_number v)
  ∨ (∃ n l, c = AddVehicle n (Vehicle.plate_number v) l).
Proof.
  destruct c as [n p l|u n l|id|id]; [|unfold step..].
  - rewrite step_AddVehicle. simpl.
    intros [[_ Hv]|[_ <-]]%lookup_snoc_Some; [left|right]; eauto.
  - destruct (createBooking u n l s) as [res s'] eqn:Hc. simpl.
    apply createBooking_inv in Hc as [[_ ->]|(? & ? & _ & _ & _ & _ & _ & ->)];
      simpl; eauto.
  - destruct (rentVehicle id s) as [ok s'] eqn:Hc. simpl.
    apply rentVehicle_inv in Hc
      as [[_ ->]|(b & r0 & v0 & _ & _ & _ & Hv0 & _ & _ & _ & ->)]; simpl; [eauto|].
    intros Hv. left. by eapply lookup_set_available_plate.
  - destruct (returnVehicle id s) as [ok s'] eqn:Hc. simpl.
    apply returnVehicle_inv in Hc
      as [[_ ->]|(b & r0 & v0 & _ & _ & _ & Hv0 & _ & _ & ->)]; simpl; [eauto|].
    intros Hv. left. by eapply lookup_set_available_plate.
Qed.

Lemma init_rental_consistent : rental_consistent init.
Proof.
  split; simpl.
  - intros r1 r2 v1 v2. by rewrite lookup_nil.
  - intros id1 id2 b1 b2. by rewrite lookup_empty.
  - intros id b. by rewrite lookup_empty.
  - intros r v. by rewrite lookup_nil.
Qed.

Lemma run_rental_consistent cs s :
  well_formed s → rental_consistent s →
  NoDup (added_plates cs) →
  (∀ r v, objects s !! r = Some v → Vehicle.plate_number v ∉ added_plates cs) →
  rental_consistent (run cs s).
Proof.
  revert s. induction cs as [|c cs IH]; simpl; [done|].
  intros s Hwf Hrc Hnodup Hold.
  assert (NoDup (added_plates cs)
          ∧ (∀ n p l, c = AddVehicle n p l → p ∉ added_plates cs)
          ∧ (∀ p, p ∈ added_plates cs → p ∈ added_plates (c :: cs))
          ∧ (∀ n p l, c = AddVehicle n p l → p ∈ added_plates (c :: cs)))
    as (Hnodup' & Hp & Hsub & Hhead).
  { destruct c; simpl in *; split_and!; try done.
    - by apply NoDup_cons in Hnodup as [_ ?].
    - intros ? ? ? [= _ <- _]. by apply NoDup_cons in Hnodup as [? _].
    - intros p Hin. apply elem_of_cons. auto.
    - intros ? ? ? [= _ <- _]. apply elem_of_cons. auto. }
  apply IH; [by apply step_well_formed| |done|].
  - apply step_rental_consistent; [done..|].
    intros n p l r v Hc Hv Heq. apply (Hold r v Hv). rewrite Heq. by eapply Hhead.
  - intros r v [(v0 & Hv0 & <-)|(n & l & Hc)]%step_object_plate.
    + intros Hin. by apply (Hold r v0 Hv0), Hsub.
    + by eapply Hp.
Qed.

(** In a consistent state, unavailability is exactly one RENTED booking. *)
Lemma rental_consistent_invariant s :
  rental_consistent s → availability_invariant s.
Proof.
  intros [Hplates Hsingle Hvehicle Hbooking] r v (location & _ & Hv).
  rewrite rented_count_one. split.
  - intros Ha. destruct (Hbooking r v Hv Ha) as (id & b & Hb & Hst & Hp).
    exists id, b. split_and!; [done|by apply rented_for_true|].
    intros id' b' Hb' [Hp' Hst']%rented_for_true.
    apply (Hsingle id' id b' b); congruence.
  - intros (id & b & Hb & [Hp Hst]%rented_for_true & _).
    destruct (Hvehicle id b Hb Hst) as (r0 & v0 & Hv0 & Hp0 & Ha0).
    assert (r0 = r) as -> by (apply (Hplates r0 r v0 v); congruence).
    congruence.
Qed.

(** Only a successful [returnVehicle] of a booking on the vehicle's plate
    makes an unavailable vehicle available. *)
Lemma step_becomes_available c s r v v' :
  objects s !! r = Some v → Vehicle.vehicleisavailable v = false →
  objects (step c s) !! r = Some v' → Vehicle.vehicleisavailable v' = true →
  ∃ id b, c = ReturnVehicle id
    ∧ booking_records s !! id = Some b
    ∧ Booking.status b = RENTED
    ∧ Booking.plate_number b = Vehicle.plate_number v
    ∧ booking_records (step c s) !! id
      = Some (Booking.mk (Booking.booking_id b) (Booking.username b)
                (Booking.vehicle_name b) (Booking.plate_number b)
                (Booking.location b) COMPLETED).
Proof.
  intros Hv Ha. destruct c as [n p l|u n l|id|id]; [|unfold step..].
  - rewrite step_AddVehicle. simpl.
    rewrite lookup_app_l by (by eapply lookup_lt_Some). congruence.
  - destruct (createBooking u n l s) as [res s'] eqn:Hc. simpl.
    apply createBooking_inv in Hc as [[_ ->]|(? & ? & _ & _ & _ & _ & _ & ->)];
      simpl; congruence.
  - destruct (rentVehicle id s) as [ok s'] eqn:Hc. simpl.
    apply rentVehicle_inv in Hc
      as [[_ ->]|(b & r0 & v0 & _ & _ & _ & Hv0 & _ & _ & _ & ->)]; simpl; [congruence|].
    intros [[-> ->]|[_ Hv']]%(lookup_set_available _ _ _ _ _ _ Hv0); [done|congruence].
  - destruct (returnVehicle id s) as [ok s'] eqn:Hc. simpl.
    apply returnVehicle_inv in Hc
      as [[_ ->]|(b & r0 & v0 & Hb & Hst & _ & Hv0 & Hp & _ & ->)]; simpl; [congruence|].
    intros [[-> ->]|[_ Hv']]%(lookup_set_available _ _ _ _ _ _ Hv0); [|congruence].
    intros _. exists id, b. split_and!; try done.
    + congruence.
    + by rewrite lookup_insert_eq.
Qed.

(** C1 (amended) -- When the plate numbers registered by [addvehicle] are
    pairwise distinct, every state reached from the empty system satisfies the
    availability invariant: a listed vehicle is unavailable if and only if
    exactly one stored booking references its plate number with status
    RENTED.  And in every reached state, whatever the plate numbers, a call
    that turns an unavailable vehicle available is a [returnVehicle] of a
    RENTED booking on that vehicle's plate number, which the call sets to
    COMPLETED. *)
Theorem availability_invariant_distinct_plates :
  (∀ cs, NoDup (added_plates cs) → availability_invariant (run cs init))
  ∧ (∀ cs c r v v',
       let s := run cs init in
       objects s !! r = Some v → Vehicle.vehicleisavailable v = false →
       objects (step c s) !! r = Some v' → Vehicle.vehicleisavailable v' = true →
       ∃ id b, c = ReturnVehicle id
         ∧ booking_records s !! id = Some b
         ∧ Booking.status b = RENTED
         ∧ Booking.plate_number b = Vehicle.plate_number v
         ∧ booking_records (step c s) !! id
           = Some (Booking.mk (Booking.booking_id b) (Booking.username b)
                     (Booking.vehicle_name b) (Booking.plate_number b)
                     (Booking.location b) COMPLETED)).
Proof.
  split.
  - intros cs Hnodup. apply rental_consistent_invariant, run_rental_consistent.
    + apply init_well_formed.
    + apply init_rental_consistent.
    + done.
    + intros r v. simpl. by rewrite lookup_nil.
  - intros cs c r v v' s. apply step_becomes_available.
Qed.

(** C1 as stated fails: after a second vehicle is registered under the plate
    number of a rented one, that vehicle is available although exactly one
    RENTED booking references its plate number. *)
Lemma shared_plate_breaks_invariant :
  ¬ availability_invariant (run shared_plate init).
Proof.
  intros Hinv.
  destruct (Hinv 1%nat (Vehicle.mk "Car" "KA01" "Bangalore" true)) as [_ Hfalse].
  - exists "Bangalore". split; [|reflexivity].
    vm_compute. apply elem_of_cons. right. apply elem_of_cons. by left.
  - discriminate Hfalse. reflexivity.
Qed.

(** *** The booking cycle *)

Lemma first_match_In cond objs vehicles r v :
  first_match cond objs vehicles = Some (r, v) →
  r ∈ vehicles ∧ objs !! r = Some v ∧ cond v = true.
Proof.
  intros (l1 & l2 & -> & Hv & Hc & _)%first_match_Some. split_and!; try done.
  apply elem_of_app. right. apply elem_of_cons. auto.
Qed.

Lemma set_available_same v :
  Vehicle.set_available (Vehicle.vehicleisavailable v) v = v.
Proof. by destruct v. Qed.

Lemma rentVehicle_found booking_id s b r v :
  booking_records s !! booking_id = Some b →
  Booking.status b = BOOKED →
  first_match (rentable b) (objects s) (getVehicles (Booking.location b) s)
  = Some (r, v) →
  rentVehicle booking_id s
  = (true,
     mkSystem (<[r := Vehicle.set_available false v]> (objects s))
       (vehicle_loc_hashmap s)
       (<[booking_id := Booking.set_status RENTED b]> (booking_records s))
       (booking_counter s)).
Proof. intros Hb Hst Hfm. unfold rentVehicle. by rewrite Hb, Hst, Hfm. Qed.

Lemma returnVehicle_found booking_id s b r v :
  booking_records s !! booking_id = Some b →
  Booking.status b = RENTED →
  first_match (same_plate b) (objects s) (getVehicles (Booking.location b) s)
  = Some (r, v) →
  returnVehicle booking_id s
  = (true,
     mkSystem (<[r := Vehicle.set_available true v]> (objects s))
       (vehicle_loc_hashmap s)
       (<[booking_id := Booking.set_status COMPLETED b]> (booking_records s))
       (booking_counter s)).
Proof. intros Hb Hst Hfm. unfold returnVehicle. by rewrite Hb, Hst, Hfm. Qed.

(** C5 (amended) -- In a state reached from the empty system where the
    vehicles listed at the location have pairwise distinct plate numbers and
    one of them, [r], is available under the requested name: [createBooking]
    returns the current counter as id, [rentVehicle] on it returns true and
    makes the booked vehicle unavailable, [returnVehicle] on it returns true,
    after which every vehicle is as it was before the three calls (so [r] is
    available) and the booking is COMPLETED.  With the single vehicle "Car",
    "KA01", "Bangalore": the booking id is 1, renting makes the vehicle
    unavailable, returning makes it available and completes booking 1. *)
Theorem book_rent_return_cycle :
  (∀ cs user vehicle_name location r v,
     let s := run cs init in
     plates_distinct_at location s →
     r ∈ getVehicles location s → objects s !! r = Some v →
     Vehicle.vehicle_name v = vehicle_name →
     Vehicle.vehicleisavailable v = true →
     cycle_restores user vehicle_name location s r
     ∧ ∃ id s1 s2 s3 r0 v0,
       createBooking user vehicle_name location s = (Some id, s1)
       ∧ id = booking_counter s
       ∧ r0 ∈ getVehicles location s ∧ objects s !! r0 = Some v0
       ∧ Vehicle.vehicle_name v0 = vehicle_name
       ∧ rentVehicle id s1 = (true, s2)
       ∧ objects s2 !! r0
         = Some (Vehicle.mk (Vehicle.vehicle_name v0) (Vehicle.plate_number v0)
                   (Vehicle.vehicle_location v0) false)
       ∧ returnVehicle id s2 = (true, s3)
       ∧ objects s3 = objects s
       ∧ objects s3 !! r = Some v
       ∧ booking_records s3 !! id
         = Some (Booking.mk id (User.username user) (Vehicle.vehicle_name v0)
                   (Vehicle.plate_number v0) (Vehicle.vehicle_location v0) COMPLETED))
  ∧ (let s := run single_car init in
     ∃ s1 s2 s3,
       createBooking prateek "Car" "Bangalore" s = (Some 1, s1)
       ∧ rentVehicle 1 s1 = (true, s2)
       ∧ objects s2 = [Vehicle.mk "Car" "KA01" "Bangalore" false]
       ∧ returnVehicle 1 s2 = (true, s3)
       ∧ objects s3 = [Vehicle.mk "Car" "KA01" "Bangalore" true]
       ∧ booking_records s3 !! 1
         = Some (Booking.mk 1 "prateek" "Car" "KA01" "Bangalore" COMPLETED)).
Proof.
  split; [|by eexists _, _, _; split_and!; reflexivity].
  intros cs user vehicle_name location r v s Hdistinct Hin Hv Hname Havail.
  assert (well_formed s) as Hwf by (apply run_well_formed, init_well_formed).
  (* createBooking: the scan stops at some bookable [r0] *)
  destruct (first_match_is_Some (bookable vehicle_name) (objects s)
              (getVehicles location s) r v) as (r0 & v0 & Hfm);
    [done|done|by apply bookable_true|].
  destruct (first_match_In _ _ _ _ _ Hfm) as (Hin0 & Hv0 & [Hname0 Havail0]%bookable_true).
  destruct (wf_index s Hwf location r0 Hin0) as (v0' & Hv0' & Hloc0).
  assert (v0' = v0) as -> by congruence.
  set (b := Booking.init (booking_counter s) user v0).
  set (s1 := mkSystem (objects s) (vehicle_loc_hashmap s)
               (<[booking_counter s := b]> (booking_records s)) (booking_counter s + 1)).
  assert (createBooking user vehicle_name location s = (Some (booking_counter s), s1))
    as Hcreate by (unfold createBooking; by rewrite Hfm).
  (* rentVehicle: the only vehicle at the location with that plate is [r0] *)
  assert (first_match (rentable b) (objects s) (getVehicles location s) = Some (r0, v0))
    as Hfm1.
  { destruct (first_match_is_Some (rentable b) (objects s)
                (getVehicles location s) r0 v0) as (r1 & v1 & Hfm1);
      [done|done|by apply rentable_true|].
    destruct (first_match_In _ _ _ _ _ Hfm1) as (Hin1 & Hv1 & [Hp1 _]%rentable_true).
    assert (r1 = r0) as -> by (by apply (Hdistinct r1 r0 v1 v0)).
    rewrite Hfm1. congruence. }
  set (v0f := Vehicle.set_available false v0).
  set (s2 := mkSystem (<[r0 := v0f]> (objects s)) (vehicle_loc_hashmap s)
               (<[booking_counter s := Booking.set_status RENTED b]> (booking_records s1))
               (booking_counter s + 1)).
  assert (rentVehicle (booking_counter s) s1 = (true, s2)) as Hrent.
  { apply (rentVehicle_found _ s1 b r0 v0); [apply lookup_insert_eq|done|].
    change (first_match (rentable b) (objects s)
              (getVehicles (Vehicle.vehicle_location v0) s) = Some (r0, v0)).
    by rewrite Hloc0. }
  assert (r0 < length (objects s))%nat as Hlt by (by eapply lookup_lt_Some).
  assert (objects s2 !! r0 = Some v0f) as Hv0f
    by (simpl; by rewrite list_lookup_insert_eq).
  (* returnVehicle: again the scan can only stop at [r0] *)
  assert (first_match (same_plate (Booking.set_status RENTED b)) (objects s2)
            (getVehicles location s) = Some (r0, v0f)) as Hfm2.
  { destruct (first_match_is_Some (same_plate (Booking.set_status RENTED b)) (objects s2)
                (getVehicles location s) r0 v0f) as (r2 & v2 & Hfm2);
      [done|done|by apply same_plate_true|].
    destruct (first_match_In _ _ _ _ _ Hfm2) as (Hin2 & Hv2 & Hp2%same_plate_true).
    simpl in Hv2.
    apply (lookup_set_available _ _ _ _ _ _ Hv0) in Hv2 as [[-> ->]|[Hne Hv2]].
    - done.
    - destruct Hne. by apply (Hdistinct r2 r0 v2 v0). }
  set (s3 := mkSystem (<[r0 := Vehicle.set_available true v0f]> (objects s2))
               (vehicle_loc_hashmap s)
               (<[booking_counter s :=
                    Booking.set_status COMPLETED (Booking.set_status RENTED b)]>
                  (booking_records s2))
               (booking_counter s + 1)).
  assert (returnVehicle (booking_counter s) s2 = (true, s3)) as Hreturn.
  { apply (returnVehicle_found _ s2 (Booking.set_status RENTED b) r0 v0f);
      [apply lookup_insert_eq|done|].
    change (first_match (same_plate (Booking.set_status RENTED b)) (objects s2)
              (getVehicles (Vehicle.vehicle_location v0) s) = Some (r0, v0f)).
    by rewrite Hloc0. }
  assert (objects s3 = objects s) as Hobjects.
  { simpl. rewrite list_insert_insert_eq. apply list_insert_id.
    rewrite Hv0. f_equal. rewrite <- (set_available_same v0) at 1.
    by rewrite Havail0. }
  assert (booking_records s3 !! booking_counter s
          = Some (Booking.mk (booking_counter s) (User.username user)
                    (Vehicle.vehicle_name v0) (Vehicle.plate_number v0)
                    (Vehicle.vehicle_location v0) COMPLETED)) as Hb3
    by (simpl; by rewrite lookup_insert_eq).
  split.
  - exists (booking_counter s), s1, s2, s3, v. eexists.
    split_and!; [done..|by rewrite Hobjects|done|exact Hb3|done].
  - exists (booking_counter s), s1, s2, s3, r0, v0.
    split_and!; try done. by rewrite Hobjects.
Qed.

(** C5 as stated fails: with a second vehicle registered under the plate
    number of a rented one, booking, renting and returning that second
    vehicle succeed, but [returnVehicle] releases the first vehicle and the
    booked one stays unavailable. *)
Lemma shared_plate_cycle_fails :
  let s := run shared_plate init in
  (1%nat ∈ getVehicles "Bangalore" s
   ∧ objects s !! 1%nat = Some (Vehicle.mk "Car" "KA01" "Bangalore" true))
  ∧ ¬ cycle_restores prateek "Car" "Bangalore" s 1.
Proof.
  split.
  - split; [|reflexivity].
    apply list_elem_of_lookup. by exists 1%nat.
  - intros (id & s1 & s2 & s3 & v' & b & Hc & Hrent & Hret & Hv' & Ha & _).
    vm_compute in Hc. injection Hc as <- <-.
    vm_compute in Hrent. injection Hrent as <-.
    vm_compute in Hret. injection Hret as <-.
    vm_compute in Hv'. injection Hv' as <-.
    discriminate Ha.
Qed.

(** *** The theorems at the script's inputs *)

Lemma script_plates_distinct : NoDup (added_plates script_rented).
Proof.
  apply NoDup_cons. split.
  - by intros ?%list_elem_of_singleton.
  - apply NoDup_singleton.
Defined.

Lemma availability_invariant_script :
  availability_invariant (run script_rented init).
Proof.
  destruct availability_invariant_distinct_plates as [Hinv _].
  apply Hinv, script_plates_distinct.
Defined.

Lemma createBooking_script :
  let s := run script_vehicles init in
  ∃ id s',
    createBooking prateek "Car" "Bangalore" s = (Some id, s')
    ∧ id = 1
    ∧ booking_records s' =
        <[id := Booking.mk id "prateek" "Car" "KA01" "Bangalore" BOOKED]> ∅
    ∧ objects s' = objects s
    ∧ vehicle_loc_hashmap s' = vehicle_loc_hashmap s.
Proof.
  destruct (createBooking_first_available prateek "Car" "Bangalore"
              (run script_vehicles init)) as [Hfound _].
  apply (Hfound [] 0%nat [1%nat] (Vehicle.mk "Car" "KA01" "Bangalore" true));
    try reflexivity.
  intros r' v' Hin. by apply elem_of_nil in Hin.
Defined.

Lemma rentVehicle_script :
  rentVehicle 1 (run script_booked init)
  = (true,
     mkSystem
       [Vehicle.mk "Car" "KA01" "Bangalore" false;
        Vehicle.mk "Bike" "KA02" "Bangalore" true]
       (vehicle_loc_hashmap (run script_booked init))
       (<[1 := Booking.mk 1 "prateek" "Car" "KA01" "Bangalore" RENTED]>
          (booking_records (run script_booked init)))
       2).
Proof.
  destruct (rentVehicle_guarded 1 (run script_booked init))
    as (_ & _ & Hfound & _).
  apply (Hfound (Booking.mk 1 "prateek" "Car" "KA01" "Bangalore" BOOKED)
           [] 0%nat [1%nat] (Vehicle.mk "Car" "KA01" "Bangalore" true));
    try reflexivity.
  intros r' v' Hin. by apply elem_of_nil in Hin.
Defined.

Lemma returnVehicle_script :
  returnVehicle 1 (run script_rented init)
  = (true,
     mkSystem
       [Vehicle.mk "Car" "KA01" "Bangalore" true;
        Vehicle.mk "Bike" "KA02" "Bangalore" true]
       (vehicle_loc_hashmap (run script_rented init))
       (<[1 := Booking.mk 1 "prateek" "Car" "KA01" "Bangalore" COMPLETED]>
          (booking_records (run script_rented init)))
       2).
Proof.
  destruct (returnVehicle_guarded 1 (run script_rented init))
    as (_ & _ & _ & Hfound & _).
  apply (Hfound (Booking.mk 1 "prateek" "Car" "KA01" "Bangalore" RENTED)
           [] 0%nat [1%nat] (Vehicle.mk "Car" "KA01" "Bangalore" false));
    try reflexivity.
  intros r' v' Hin. by apply elem_of_nil in Hin.
Defined.

Lemma single_car_plates_distinct :
  plates_distinct_at "Bangalore" (run single_car init).
Proof.
  intros r1 r2 v1 v2 H1 H2 _ _ _.
  change (getVehicles "Bangalore" (run single_car init)) with [0%nat] in H1, H2.
  apply list_elem_of_singleton in H1, H2. congruence.
Defined.

Lemma book_rent_return_single_car :
  cycle_restores prateek "Car" "Bangalore" (run single_car init) 0.
Proof.
  destruct book_rent_return_cycle as [Hcycle _].
  destruct (Hcycle single_car prateek "Car" "Bangalore" 0%nat
              (Vehicle.mk "Car" "KA01" "Bangalore" true)) as [Hrestores _];
    try reflexivity.
  - exact single_car_plates_distinct.
  - by apply list_elem_of_singleton.
  - exact Hrestores.
Defined.

(** *** What calls preserve *)

Lemma same_vehicle_refl v : same_vehicle v v.
Proof. by split_and!. Qed.

Lemma same_vehicle_trans v1 v2 v3 :
  same_vehicle v1 v2 → same_vehicle v2 v3 → same_vehicle v1 v3.
Proof. intros (? & ? & ?) (? & ? & ?). split_and!; congruence. Qed.

Lemma advanced_refl b : advanced b b.
Proof. by split_and!. Qed.

Lemma advanced_trans b1 b2 b3 : advanced b1 b2 → advanced b2 b3 → advanced b1 b3.
Proof.
  intros (? & ? & ? & ? & ? & ?) (? & ? & ? & ? & ? & ?).
  split_and!; try congruence. lia.
Qed.

(** One call keeps every vehicle object, up to availability, and extends
    each location's list at its end. *)
Lemma step_keeps_vehicles c s :
  (∀ r v, objects s !! r = Some v →
     ∃ v', objects (step c s) !! r = Some v' ∧ same_vehicle v v')
  ∧ (∀ location, getVehicles location s `prefix_of` getVehicles location (step c s)).
Proof.
  destruct c as [n p l|u n l|id|id]; [|unfold step..].
  - rewrite step_AddVehicle. split.
    + intros r v Hv. exists v. split; [|apply same_vehicle_refl]. simpl.
      rewrite lookup_app_l; [done|]. by eapply lookup_lt_Some.
    + intros location. rewrite getVehicles_insert. case_decide as Hl.
      * rewrite Hl. by apply prefix_app_r.
      * done.
  - destruct (createBooking u n l s) as [res s'] eqn:Hc. simpl.
    apply createBooking_inv in Hc as [[_ ->]|(? & ? & _ & _ & _ & _ & _ & ->)];
      (split; [intros r v Hv; exists v; split; [done|apply same_vehicle_refl]|done]).
  - destruct (rentVehicle id s) as [ok s'] eqn:Hc. simpl.
    apply rentVehicle_inv in Hc
      as [[_ ->]|(b & r0 & v0 & _ & _ & _ & Hv0 & _ & _ & _ & ->)].
    { split; [intros r v Hv; exists v; split; [done|apply same_vehicle_refl]|done]. }
    split; [|done]. intros r v Hv. simpl.
    destruct (decide (r = r0)) as [->|Hne].
    + exists (Vehicle.set_available false v0).
      rewrite list_lookup_insert_eq by (by eapply lookup_lt_Some).
      split; [done|]. assert (v = v0) as -> by congruence. by split_and!.
    + exists v. rewrite list_lookup_insert_ne by done.
      split; [done|apply same_vehicle_refl].
  - destruct (returnVehicle id s) as [ok s'] eqn:Hc. simpl.
    apply returnVehicle_inv in Hc
      as [[_ ->]|(b & r0 & v0 & _ & _ & _ & Hv0 & _ & _ & ->)].
    { split; [intros r v Hv; exists v; split; [done|apply same_vehicle_refl]|done]. }
    split; [|done]. intros r v Hv. simpl.
    destruct (decide (r = r0)) as [->|Hne].
    + exists (Vehicle.set_available true v0).
      rewrite list_lookup_insert_eq by (by eapply lookup_lt_Some).
      split; [done|]. assert (v = v0) as -> by congruence. by split_and!.
    + exists v. rewrite list_lookup_insert_ne by done.
      split; [done|apply same_vehicle_refl].
Qed.

(** X2 -- Whatever calls follow, a vehicle object stays in place with its
    name, plate number and location (only its availability can differ), and
    each location's list keeps its elements in order, growing at the end. *)
Theorem vehicles_never_removed cs s :
  (∀ r v, objects s !! r = Some v →
     ∃ v', objects (run cs s) !! r = Some v' ∧ same_vehicle v v')
  ∧ (∀ location, getVehicles location s `prefix_of` getVehicles location (run cs s)).
Proof.
  revert s. induction cs as [|c cs IH]; intros s; simpl.
  - split; [|done]. intros r v Hv. exists v. split; [done|apply same_vehicle_refl].
  - destruct (step_keeps_vehicles c s) as [Hobj Hidx].
    destruct (IH (step c s)) as [Hobj' Hidx']. split.
    + intros r v (v1 & Hv1 & Hs1)%Hobj.
      destruct (Hobj' r v1 Hv1) as (v2 & Hv2 & Hs2).
      exists v2. split; [done|]. by eapply same_vehicle_trans.
    + intros location. etrans; [apply Hidx|apply Hidx'].
Qed.


(** *** The location index *)

Lemma filter_agree {A} (P Q : A → Prop) `{∀ x, Decision (P x)} `{∀ x, Decision (Q x)}
    (l : list A) :
  (∀ x, x ∈ l → P x ↔ Q x) → filter P l = filter Q l.
Proof.
  induction l as [|x l IH]; intros Hagree; [done|].
  rewrite !filter_cons.
  rewrite IH by (intros y Hy; apply Hagree, elem_of_cons; auto).
  destruct (decide (P x)) as [HP|HP], (decide (Q x)) as [HQ|HQ]; try done;
    destruct (Hagree x); try (apply elem_of_cons; auto); tauto.
Qed.

Lemma indexed_update s r v v' records counter :
  indexed s → objects s !! r = Some v →
  Vehicle.vehicle_location v' = Vehicle.vehicle_location v →
  indexed (mkSystem (<[r := v']> (objects s)) (vehicle_loc_hashmap s) records counter).
Proof.
  intros Hidx Hv Hloc location.
  change (getVehicles location (mkSystem _ _ _ _)) with (getVehicles location s).
  etrans; [apply Hidx|]. simpl. rewrite length_insert.
  apply filter_agree. intros r' _. unfold located. simpl.
  destruct (decide (r' = r)) as [->|Hne].
  - rewrite list_lookup_insert_eq by (by eapply lookup_lt_Some).
    by rewrite Hv, Hloc.
  - by rewrite list_lookup_insert_ne.
Qed.

Lemma step_indexed c s : indexed s → indexed (step c s).
Proof.
  intros Hidx. destruct c as [n p l|u n l|id|id]; [|unfold step..].
  - rewrite step_AddVehicle. intros location.
    rewrite getVehicles_insert. simpl.
    rewrite length_app, Nat.add_1_r, seq_S, filter_app. simpl.
    assert (filter (λ r, located (mkSystem (objects s ++ [Vehicle.init n p l])
                (<[l := getVehicles l s ++ [length (objects s)]]> (vehicle_loc_hashmap s))
                (booking_records s) (booking_counter s)) location r = true)
              (seq 0 (length (objects s)))
            = getVehicles location s) as ->.
    { etrans; [|symmetry; apply Hidx]. apply filter_agree. intros r Hr%elem_of_seq.
      unfold located. simpl. by rewrite lookup_app_l by lia. }
    assert (located (mkSystem (objects s ++ [Vehicle.init n p l])
                (<[l := getVehicles l s ++ [length (objects s)]]> (vehicle_loc_hashmap s))
                (booking_records s) (booking_counter s)) location (length (objects s))
            = String.eqb l location) as Hnew.
    { unfold located. simpl. by rewrite list_lookup_middle. }
    rewrite filter_cons, filter_nil.
    case_decide as Hl; case_decide as Hloc; rewrite Hnew in Hloc.
    + by rewrite Hl.
    + apply not_true_is_false, String.eqb_neq in Hloc. done.
    + apply String.eqb_eq in Hloc. done.
    + by rewrite app_nil_r.
  - destruct (createBooking u n l s) as [res s'] eqn:Hc. simpl.
    by apply createBooking_inv in Hc as [[_ ->]|(? & ? & _ & _ & _ & _ & _ & ->)].
  - destruct (rentVehicle id s) as [ok s'] eqn:Hc. simpl.
    apply rentVehicle_inv in Hc
      as [[_ ->]|(b & r0 & v0 & _ & _ & _ & Hv0 & _ & _ & _ & ->)]; [done|].
    by apply (indexed_update s r0 v0).
  - destruct (returnVehicle id s) as [ok s'] eqn:Hc. simpl.
    apply returnVehicle_inv in Hc
      as [[_ ->]|(b & r0 & v0 & _ & _ & _ & Hv0 & _ & _ & ->)]; [done|].
    by apply (indexed_update s r0 v0).
Qed.

(** X1 -- [addvehicle] appends the vehicle it is given to the list of the
    vehicle's location, whether or not that list holds it already, and leaves
    the other lists as they are: a vehicle object passed twice is listed
    twice.  So after calls on the empty system in which every [addvehicle]
    receives a newly constructed vehicle (as [AddVehicle] does),
    [getVehicles location] is the list of the vehicles whose location is
    [location], each once, in the order [addvehicle] received them; for a
    location with no vehicle it is empty. *)
Theorem getVehicles_registration_order cs location :
  let s := run cs init in
  getVehicles location s
  = filter (λ r, located s location r = true) (seq 0 (length (objects s)))
  ∧ ∀ s0 vehicle v,
      objects s0 !! vehicle = Some v →
      (addvehicle vehicle s0).1 = true
      ∧ getVehicles (Vehicle.vehicle_location v) (addvehicle vehicle s0).2
        = getVehicles (Vehicle.vehicle_location v) s0 ++ [vehicle]
      ∧ ∀ other, other ≠ Vehicle.vehicle_location v →
          getVehicles other (addvehicle vehicle s0).2 = getVehicles other s0.
Proof.
  intros s. split.
  - revert location.
    change (indexed (run cs init)).
    assert (∀ s0, indexed s0 → indexed (run cs s0)) as Hrun.
    { induction cs as [|c cs IH]; simpl; [done|].
      intros s0 H0. by apply IH, step_indexed. }
    apply Hrun. intros location. unfold getVehicles. simpl. by rewrite lookup_empty.
  - intros s0 vehicle v Hv. unfold addvehicle. rewrite Hv. simpl.
    split_and!; [done| |].
    + unfold getVehicles at 1. simpl. by rewrite lookup_insert_eq.
    + intros other Hother. unfold getVehicles at 1. simpl.
      by rewrite lookup_insert_ne.
Qed.

(** The same vehicle object passed to [addvehicle] a second time. *)
Lemma addvehicle_twice_listed_twice :
  let s0 := run [AddVehicle "Car" "KA01" "Bangalore"] init in
  objects s0 !! 0%nat = Some (Vehicle.mk "Car" "KA01" "Bangalore" true)
  ∧ getVehicles "Bangalore" s0 = [0%nat]
  ∧ getVehicles "Bangalore" (addvehicle 0%nat s0).2 = [0%nat; 0%nat].
Proof.
  intros s0.
  assert (objects s0 !! 0%nat = Some (Vehicle.mk "Car" "KA01" "Bangalore" true))
    as Hv by reflexivity.
  split_and!; [done|reflexivity|].
  destruct (getVehicles_registration_order [] "Bangalore") as [_ Happend].
  destruct (Happend s0 0%nat _ Hv) as (_ & Hlisted & _).
  exact Hlisted.
Defined.

(** *** Booking ids *)


Lemma ids_sequential_update s id b objs st :
  ids_sequential s → booking_records s !! id = Some b →
  ids_sequential (mkSystem objs (vehicle_loc_hashmap s)
                    (<[id := Booking.set_status st b]> (booking_records s))
                    (booking_counter s)).
Proof.
  intros (Hone & Hdom & Hkey) Hb. split_and!; simpl; [done| |].
  - intros id'. rewrite <- Hdom, lookup_insert_is_Some.
    split; [intros [<-|[_ ?]]; [by eexists|done]|].
    intros ?. destruct (decide (id = id')); auto.
  - intros id' b' [[<- <-]|[_ Hb']]%lookup_insert_Some;
      [exact (Hkey id b Hb)|by apply Hkey].
Qed.

Lemma step_ids_sequential c s : ids_sequential s → ids_sequential (step c s).
Proof.
  intros Hids. destruct c as [n p l|u n l|id|id]; [|unfold step..].
  - by rewrite step_AddVehicle.
  - destruct (createBooking u n l s) as [res s'] eqn:Hc. simpl.
    apply createBooking_inv in Hc as [[_ ->]|(r & v & _ & _ & _ & _ & _ & ->)]; [done|].
    destruct Hids as (Hone & Hdom & Hkey). split_and!; simpl; [lia| |].
    + intros id. rewrite lookup_insert_is_Some, Hdom.
      split; [intros [<-|[_ ?]]; lia|].
      intros ?. destruct (decide (booking_counter s = id)); [auto|right; split; [done|lia]].
    + intros id b [[<- <-]|[_ Hb]]%lookup_insert_Some; [done|by apply Hkey].
  - destruct (rentVehicle id s) as [ok s'] eqn:Hc. simpl.
    apply rentVehicle_inv in Hc
      as [[_ ->]|(b & r0 & v0 & Hb & _ & _ & _ & _ & _ & _ & ->)]; [done|].
    by apply ids_sequential_update.
  - destruct (returnVehicle id s) as [ok s'] eqn:Hc. simpl.
    apply returnVehicle_inv in Hc
      as [[_ ->]|(b & r0 & v0 & Hb & _ & _ & _ & _ & _ & ->)]; [done|].
    by apply ids_sequential_update.
Qed.

Lemma run_ids_sequential cs s : ids_sequential s → ids_sequential (run cs s).
Proof.
  revert s. induction cs as [|c cs IH]; simpl; [done|].
  intros s Hs. by apply IH, step_ids_sequential.
Qed.

Lemma init_ids_sequential : ids_sequential init.
Proof.
  split_and!; simpl; [done| |].
  - intros id. rewrite lookup_empty. split; [by intros [? ?]|lia].
  - intros id b. by rewrite lookup_empty.
Qed.

(** X3 -- After any calls on the empty system the booking ids in use are
    exactly 1, 2, ... below the counter and each booking is stored under its
    own [booking_id]; a successful [createBooking] returns the counter, an id
    not in use, and moves the counter one up. *)
Theorem booking_ids_sequential cs user vehicle_name location :
  let s := run cs init in
  ids_sequential s
  ∧ ∀ id s', createBooking user vehicle_name location s = (Some id, s') →
      id = booking_counter s
      ∧ booking_records s !! id = None
      ∧ booking_counter s' = id + 1.
Proof.
  intros s.
  assert (ids_sequential s) as Hids by apply run_ids_sequential, init_ids_sequential.
  split; [done|].
  intros id s' [[? _]|(r & v & _ & _ & _ & _ & [= ->] & ->)]%createBooking_inv; [done|].
  split_and!; [done| |done].
  destruct Hids as (_ & Hdom & _).
  destruct (booking_records s !! booking_counter s) eqn:Hb; [|done].
  assert (is_Some (booking_records s !! booking_counter s)) as Hsome by (by eexists).
  apply Hdom in Hsome. lia.
Qed.

(** *** Bookings only advance *)

Lemma run_app cs cs' s : run (cs ++ cs') s = run cs' (run cs s).
Proof. revert s. induction cs as [|c cs IH]; simpl; [done|]. intros s. apply IH. Qed.

Lemma advanced_set_status b st :
  (status_rank (Booking.status b) ≤ status_rank st)%nat →
  advanced b (Booking.set_status st b).
Proof. intros Hrank. by split_and!. Qed.

Lemma step_advances c s id b :
  well_formed s → booking_records s !! id = Some b →
  ∃ b', booking_records (step c s) !! id = Some b' ∧ advanced b b'.
Proof.
  intros Hwf Hb. destruct c as [n p l|u n l|id0|id0]; [|unfold step..].
  - rewrite step_AddVehicle. simpl. eauto using advanced_refl.
  - destruct (createBooking u n l s) as [res s'] eqn:Hc. simpl.
    apply createBooking_inv in Hc as [[_ ->]|(r & v & _ & _ & _ & _ & _ & ->)];
      [eauto using advanced_refl|].
    exists b. split; [|apply advanced_refl]. simpl.
    rewrite lookup_insert_ne; [done|].
    apply (wf_fresh s Hwf) in Hb. lia.
  - destruct (rentVehicle id0 s) as [ok s'] eqn:Hc. simpl.
    apply rentVehicle_inv in Hc
      as [[_ ->]|(b0 & r0 & v0 & Hb0 & Hst & _ & _ & _ & _ & _ & ->)];
      [eauto using advanced_refl|].
    simpl. destruct (decide (id0 = id)) as [->|Hne].
    + rewrite lookup_insert_eq. assert (b0 = b) as -> by congruence.
      eexists. split; [done|]. apply advanced_set_status. rewrite Hst. simpl. lia.
    + rewrite lookup_insert_ne by done. eauto using advanced_refl.
  - destruct (returnVehicle id0 s) as [ok s'] eqn:Hc. simpl.
    apply returnVehicle_inv in Hc
      as [[_ ->]|(b0 & r0 & v0 & Hb0 & Hst & _ & _ & _ & _ & ->)];
      [eauto using advanced_refl|].
    simpl. destruct (decide (id0 = id)) as [->|Hne].
    + rewrite lookup_insert_eq. assert (b0 = b) as -> by congruence.
      eexists. split; [done|]. apply advanced_set_status. rewrite Hst. simpl. lia.
    + rewrite lookup_insert_ne by done. eauto using advanced_refl.
Qed.

Lemma run_advances cs s id b :
  well_formed s → booking_records s !! id = Some b →
  ∃ b', booking_records (run cs s) !! id = Some b' ∧ advanced b b'.
Proof.
  revert s b. induction cs as [|c cs IH]; simpl; intros s b Hwf Hb.
  - eauto using advanced_refl.
  - destruct (step_advances c s id b Hwf Hb) as (b1 & Hb1 & Hadv1).
    destruct (IH (step c s) b1 (step_well_formed c s Hwf) Hb1) as (b2 & Hb2 & Hadv2).
    exists b2. split; [done|]. by eapply advanced_trans.
Qed.

(** X4 -- A stored booking is never deleted or rewritten by later calls:
    it stays under its id with the same id, username, vehicle name, plate
    number and location, its status the same or later in BOOKED, RENTED,
    COMPLETED; once COMPLETED it no longer changes at all. *)
Theorem bookings_only_advance cs cs' id b :
  booking_records (run cs init) !! id = Some b →
  ∃ b', booking_records (run (cs ++ cs') init) !! id = Some b'
    ∧ advanced b b'
    ∧ (Booking.status b = COMPLETED → b' = b).
Proof.
  intros Hb. rewrite run_app.
  destruct (run_advances cs' (run cs init) id b) as (b' & Hb' & Hadv);
    [apply run_well_formed, init_well_formed|done|].
  exists b'. split_and!; [done..|].
  intros Hst. destruct Hadv as (? & ? & ? & ? & ? & Hrank).
  rewrite Hst in Hrank. destruct b, b'. simpl in *. subst.
  f_equal. destruct status0; simpl in Hrank; (done || lia).
Qed.

(** *** Booking does not reserve; renting does *)

(** X5 -- [createBooking] reserves nothing: right after a successful
    booking, a second [createBooking] for the same name and location also
    succeeds, with the next id, on the same vehicle (same plate number and
    location), and both bookings are BOOKED. *)
Theorem createBooking_does_not_reserve user user' vehicle_name location s id s1 :
  createBooking user vehicle_name location s = (Some id, s1) →
  ∃ s2 b1 b2,
    createBooking user' vehicle_name location s1 = (Some (id + 1), s2)
    ∧ booking_records s2 !! id = Some b1
    ∧ booking_records s2 !! (id + 1) = Some b2
    ∧ Booking.plate_number b2 = Booking.plate_number b1
    ∧ Booking.location b2 = Booking.location b1
    ∧ Booking.status b1 = BOOKED ∧ Booking.status b2 = BOOKED.
Proof.
  unfold createBooking at 1.
  destruct (first_match _ _ _) as [[r v]|] eqn:Hfm; [|done].
  simpl. intros [= <- <-].
  unfold createBooking. simpl.
  change (getVehicles location (mkSystem _ _ _ _)) with (getVehicles location s).
  rewrite Hfm. simpl.
  eexists _, (Booking.init (booking_counter s) user v),
    (Booking.init (booking_counter s + 1) user' v).
  split_and!; [reflexivity| | |done..]; simpl.
  - rewrite lookup_insert_ne by lia. apply lookup_insert_eq.
  - apply lookup_insert_eq.
Qed.

(** X6 -- With distinct plate numbers at the location, two bookings on one
    vehicle exclude each other at rental: once [rentVehicle] succeeded on
    the first, [rentVehicle] on the second fails and changes nothing; after
    the first is returned, [rentVehicle] on the second (still BOOKED)
    succeeds. *)
Theorem rentVehicle_excludes id1 id2 s s1 b1 b2 :
  plates_distinct_at (Booking.location b1) s →
  booking_records s !! id1 = Some b1 → booking_records s !! id2 = Some b2 →
  id1 ≠ id2 →
  Booking.plate_number b2 = Booking.plate_number b1 →
  Booking.location b2 = Booking.location b1 →
  rentVehicle id1 s = (true, s1) →
  rentVehicle id2 s1 = (false, s1)
  ∧ (∀ s2, returnVehicle id1 s1 = (true, s2) → Booking.status b2 = BOOKED →
       ∃ s3, rentVehicle id2 s2 = (true, s3)).
Proof.
  intros Hdistinct Hb1 Hb2 Hne Hplate Hloc
    [[? _]|(b & r & v & Hb & Hst & Hin & Hv & Hp & Ha & _ & ->)]%rentVehicle_inv; [done|].
  assert (b = b1) as -> by congruence.
  assert (r < length (objects s))%nat as Hlt by (by eapply lookup_lt_Some).
  set (s1 := mkSystem _ _ _ _).
  assert (booking_records s1 !! id2 = Some b2) as Hb2'
    by (simpl; by rewrite lookup_insert_ne).
  (* in [s1] the only vehicle at the location with the plate is [r] *)
  assert (∀ r' v', r' ∈ getVehicles (Booking.location b1) s →
            objects s1 !! r' = Some v' →
            Vehicle.plate_number v' = Booking.plate_number b1 →
            r' = r ∧ v' = Vehicle.set_available false v) as Honly.
  { intros r' v' Hin' [[-> ->]|[Hne' Hv']]%(lookup_set_available _ _ _ _ _ _ Hv) Hp';
      [done|].
    destruct Hne'. apply (Hdistinct r' r v' v); congruence. }
  split.
  - destruct (rentVehicle id2 s1) as [ok s'] eqn:Hrent.
    apply rentVehicle_inv in Hrent
      as [[-> ->]|(b & r' & v' & Hb' & _ & Hin' & Hv' & Hp' & Ha' & _ & _)]; [done|].
    assert (b = b2) as -> by congruence.
    rewrite Hloc in Hin'. rewrite Hplate in Hp'.
    destruct (Honly r' v' Hin' Hv' Hp') as [-> ->]. done.
  - intros s2 [[? _]|(b & r2 & v2 & Hb' & _ & Hin2 & Hv2 & Hp2 & _ & ->)]%returnVehicle_inv
      Hst2; [done|].
    assert (b = Booking.set_status RENTED b1) as ->
      by (simpl in Hb'; rewrite lookup_insert_eq in Hb'; congruence).
    destruct (Honly r2 v2 Hin2 Hv2 Hp2) as [-> ->].
    set (s2 := mkSystem _ _ _ _).
    assert (booking_records s2 !! id2 = Some b2) as Hb2''
      by (simpl; by rewrite !lookup_insert_ne).
    destruct (first_match_is_Some (rentable b2) (objects s2)
                (getVehicles (Booking.location b2) s2) r
                (Vehicle.set_available true (Vehicle.set_available false v)))
      as (r3 & v3 & Hfm).
    + by rewrite Hloc.
    + simpl. apply list_lookup_insert_eq. by rewrite length_insert.
    + apply rentable_true. split; [|done]. simpl. congruence.
    + eexists. by eapply rentVehicle_found.
Qed.

(** *** A rented vehicle can always be returned *)

Lemma step_bookings_backed c s :
  well_formed s → bookings_backed s → bookings_backed (step c s).
Proof.
  intros Hwf Hbacked.
  destruct (step_keeps_vehicles c s) as [Hobj Hidx].
  (* a booking of [s], up to its status, is still backed after the call *)
  assert (∀ b b', (∃ id, booking_records s !! id = Some b) →
            Booking.plate_number b' = Booking.plate_number b →
            Booking.vehicle_name b' = Booking.vehicle_name b →
            Booking.location b' = Booking.location b →
            ∃ r v, r ∈ getVehicles (Booking.location b') (step c s)
              ∧ objects (step c s) !! r = Some v
              ∧ Vehicle.plate_number v = Booking.plate_number b'
              ∧ Vehicle.vehicle_name v = Booking.vehicle_name b') as Hold.
  { intros b b' [id Hb] Hp Hn Hl.
    destruct (Hbacked id b Hb) as (r & v & Hin & Hv & Hvp & Hvn).
    destruct (Hobj r v Hv) as (v' & Hv' & Hn' & Hp' & _).
    exists r, v'. split_and!; [|done|congruence..].
    rewrite Hl. destruct (Hidx (Booking.location b)) as [k ->].
    apply elem_of_app. by left. }
  destruct c as [n p l|u n l|id0|id0]; [|unfold step in *..].
  - intros id b Hb. rewrite step_AddVehicle in Hb. simpl in Hb.
    apply (Hold b b); eauto.
  - destruct (createBooking u n l s) as [res s'] eqn:Hc. simpl in *.
    apply createBooking_inv in Hc
      as [[_ ->]|(r & v & Hin & Hv & Hname & _ & _ & ->)]; [done|].
    intros id b. simpl. intros [[<- <-]|[_ Hb]]%lookup_insert_Some.
    + exists r, v. split_and!; [|done..]. simpl. by apply (wf_listed s Hwf).
    + apply (Hold b b); eauto.
  - destruct (rentVehicle id0 s) as [ok s'] eqn:Hc. simpl in *.
    apply rentVehicle_inv in Hc
      as [[_ ->]|(b0 & r0 & v0 & Hb0 & _ & _ & _ & _ & _ & _ & ->)]; [done|].
    intros id b. simpl. intros [[<- <-]|[_ Hb]]%lookup_insert_Some.
    + apply (Hold b0); eauto.
    + apply (Hold b b); eauto.
  - destruct (returnVehicle id0 s) as [ok s'] eqn:Hc. simpl in *.
    apply returnVehicle_inv in Hc
      as [[_ ->]|(b0 & r0 & v0 & Hb0 & _ & _ & _ & _ & _ & ->)]; [done|].
    intros id b. simpl. intros [[<- <-]|[_ Hb]]%lookup_insert_Some.
    + apply (Hold b0); eauto.
    + apply (Hold b b); eauto.
Qed.

Lemma run_bookings_backed cs s :
  well_formed s → bookings_backed s → bookings_backed (run cs s).
Proof.
  revert s. induction cs as [|c cs IH]; simpl; [done|].
  intros s Hwf Hb. apply IH; [by apply step_well_formed|by apply step_bookings_backed].
Qed.

(** X7 -- In every state reached from the empty system, [returnVehicle] on
    a RENTED booking returns true: the booking's vehicle is still listed at
    the booking's location, so the closing [return False] is not reached. *)
Theorem returnVehicle_succeeds cs id b :
  let s := run cs init in
  booking_records s !! id = Some b → Booking.status b = RENTED →
  ∃ s', returnVehicle id s = (true, s').
Proof.
  intros s Hb Hst.
  assert (bookings_backed s) as Hbacked.
  { apply run_bookings_backed; [apply init_well_formed|].
    intros id' b'. simpl. by rewrite lookup_empty. }
  destruct (Hbacked id b Hb) as (r & v & Hin & Hv & Hp & _).
  destruct (first_match_is_Some (same_plate b) (objects s)
              (getVehicles (Booking.location b) s) r v) as (r0 & v0 & Hfm);
    [done|done|by apply same_plate_true|].
  eexists. by eapply returnVehicle_found.
Qed.

(** *** The user-facing layer *)


Lemma Userbookvehicle_system user vehicle_name location f :
  vehicle_book_rent_manager (Userbookvehicle user vehicle_name location f).2
  = (createBooking user vehicle_name location (vehicle_book_rent_manager f)).2.
Proof.
  unfold Userbookvehicle.
  destruct (createBooking _ _ _ _) as [[id|] s]; [|done].
  by destruct (negb (id =? 0)).
Qed.

Lemma facade_step_system c f :
  vehicle_book_rent_manager (facade_step c f)
  = step (service_call c) (vehicle_book_rent_manager f).
Proof.
  destruct c as [n p l|u n l|id|id]; simpl.
  - done.
  - apply Userbookvehicle_system.
  - unfold UserrentVehicle. by destruct (rentVehicle _ _) as [[|] s].
  - unfold UserreturnVehcile. by destruct (returnVehicle _ _) as [[|] s].
Qed.

Lemma facade_step_stdout c f :
  length (stdout (facade_step c f)) = (length (stdout f) + printed_lines c)%nat.
Proof.
  destruct c as [n p l|u n l|id|id]; simpl.
  - lia.
  - unfold Userbookvehicle.
    destruct (createBooking _ _ _ _) as [[id|] s]; [destruct (negb (id =? 0))|];
      simpl; rewrite length_app; simpl; lia.
  - unfold UserrentVehicle. destruct (rentVehicle _ _) as [[|] s];
      simpl; rewrite length_app; simpl; lia.
  - unfold UserreturnVehcile. destruct (returnVehicle _ _) as [[|] s];
      simpl; rewrite length_app; simpl; lia.
Qed.

Lemma facade_run_system cs f :
  vehicle_book_rent_manager (facade_run cs f)
  = run (service_call <$> cs) (vehicle_book_rent_manager f).
Proof.
  revert f. induction cs as [|c cs IH]; intros f; simpl; [done|].
  by rewrite IH, facade_step_system.
Qed.

(** X8 -- The user-facing layer adds nothing to the service: after any
    user-facing calls the service is in the state the corresponding service
    calls produce, and exactly one line was printed for each book, rent or
    return call. *)
Theorem facade_drives_service cs f :
  vehicle_book_rent_manager (facade_run cs f)
  = run (service_call <$> cs) (vehicle_book_rent_manager f)
  ∧ length (stdout (facade_run cs f))
    = (length (stdout f) + sum_list (printed_lines <$> cs))%nat.
Proof.
  split; [apply facade_run_system|].
  revert f. induction cs as [|c cs IH]; intros f.
  - simpl. lia.
  - change (facade_run (c :: cs) f) with (facade_run cs (facade_step c f)).
    rewrite IH, facade_step_stdout.
    change (sum_list (printed_lines <$> c :: cs))
      with (printed_lines c + sum_list (printed_lines <$> cs))%nat.
    lia.
Qed.

(** A status update of a stored booking keeps what [user_bookings] tracks. *)
Lemma bookings_tracked_update f s' id b st out :
  bookings_tracked f →
  booking_records (vehicle_book_rent_manager f) !! id = Some b →
  booking_records s'
  = <[id := Booking.set_status st b]> (booking_records (vehicle_book_rent_manager f)) →
  bookings_tracked (mkFacade s' (user_bookings f) out).
Proof.
  intros Htracked Hb Hrec username.
  destruct (Htracked username) as [Hnodup Hiff]. split; [done|].
  intros id'. rewrite Hiff. simpl. rewrite Hrec. split.
  - intros (b' & Hb' & Hu). destruct (decide (id = id')) as [<-|Hne].
    + exists (Booking.set_status st b). rewrite lookup_insert_eq.
      split; [done|]. simpl. congruence.
    + exists b'. by rewrite lookup_insert_ne.
  - intros (b' & [[<- <-]|[_ Hb']]%lookup_insert_Some & Hu);
      [exists b; split; [done|exact Hu]|eauto].
Qed.

Lemma facade_step_tracked c f :
  well_formed (vehicle_book_rent_manager f) →
  booking_counter (vehicle_book_rent_manager f) ≠ 0 →
  bookings_tracked f → bookings_tracked (facade_step c f).
Proof.
  intros Hwf Hcounter Htracked.
  destruct c as [n p l|u n l|id|id]; unfold facade_step.
  - intros username. destruct (Htracked username) as [Hnodup Hiff].
    split; [done|]. intros id. rewrite Hiff.
    cbn [vehicle_book_rent_manager]. by rewrite step_AddVehicle.
  - unfold Userbookvehicle.
    destruct (createBooking _ _ _ _) as [res s] eqn:Hc.
    apply createBooking_inv in Hc as [[-> ->]|(r & v & _ & _ & _ & _ & -> & ->)];
      [done|].
    apply Z.eqb_neq in Hcounter. rewrite Hcounter. simpl.
    set (id := booking_counter (vehicle_book_rent_manager f)).
    assert (∀ username, id ∉ default [] (user_bookings f !! username)) as Hfresh.
    { intros username Hin. apply (Htracked username) in Hin as (b & Hb & _).
      apply (wf_fresh _ Hwf) in Hb. unfold id in Hb. lia. }
    intros username. destruct (Htracked username) as [Hnodup Hiff]. simpl.
    destruct (decide (User.username u = username)) as [<-|Hne].
    + rewrite lookup_insert_eq. simpl. split.
      * apply NoDup_app. split_and!; [done| |apply NoDup_singleton].
        intros x Hx ->%list_elem_of_singleton. by apply (Hfresh (User.username u)).
      * intros id'. rewrite elem_of_app, list_elem_of_singleton, Hiff. split.
        -- intros [(b & Hb & Hu)| ->].
           ++ exists b. split; [|done]. rewrite lookup_insert_ne; [done|].
              apply (wf_fresh _ Hwf) in Hb. unfold id. lia.
           ++ eexists. by rewrite lookup_insert_eq.
        -- intros (b & [[<- <-]|[_ Hb]]%lookup_insert_Some & Hu); eauto.
    + rewrite lookup_insert_ne by done. split; [done|].
      intros id'. rewrite Hiff. split.
      * intros (b & Hb & Hu). exists b. split; [|done].
        rewrite lookup_insert_ne; [done|].
        apply (wf_fresh _ Hwf) in Hb. unfold id. lia.
      * intros (b & [[<- <-]|[_ Hb]]%lookup_insert_Some & Hu); [done|eauto].
  - unfold UserrentVehicle.
    destruct (rentVehicle _ _) as [ok s] eqn:Hc.
    apply rentVehicle_inv in Hc
      as [[-> ->]|(b & r0 & v0 & Hb & _ & _ & _ & _ & _ & -> & ->)]; [done|].
    by eapply bookings_tracked_update.
  - unfold UserreturnVehcile.
    destruct (returnVehicle _ _) as [ok s] eqn:Hc.
    apply returnVehicle_inv in Hc
      as [[-> ->]|(b & r0 & v0 & Hb & _ & _ & _ & _ & -> & ->)]; [done|].
    by eapply bookings_tracked_update.
Qed.

Lemma facade_run_tracked cs f :
  well_formed (vehicle_book_rent_manager f) →
  ids_sequential (vehicle_book_rent_manager f) →
  bookings_tracked f → bookings_tracked (facade_run cs f).
Proof.
  revert f. induction cs as [|c cs IH]; simpl; [done|].
  intros f Hwf Hids Htracked. apply IH.
  - rewrite facade_step_system. by apply step_well_formed.
  - rewrite facade_step_system. by apply step_ids_sequential.
  - apply facade_step_tracked; [done| |done]. destruct Hids as [? _]. lia.
Qed.

(** X9 -- After any user-facing calls on a new manager, [user_bookings]
    lists for each username exactly the ids of the stored bookings made
    under that name, each id once. *)
Theorem user_bookings_tracked cs username :
  let f := facade_run cs new_Facade in
  NoDup (default [] (user_bookings f !! username))
  ∧ ∀ id, id ∈ default [] (user_bookings f !! username)
      ↔ ∃ b, booking_records (vehicle_book_rent_manager f) !! id = Some b
          ∧ Booking.username b = username.
Proof.
  intros f. apply facade_run_tracked.
  - apply init_well_formed.
  - apply init_ids_sequential.
  - intros u. simpl. rewrite lookup_empty. simpl. split; [apply NoDup_nil_2|].
    intros id. rewrite elem_of_nil. split; [done|].
    intros (b & Hb & _). by rewrite lookup_empty in Hb.
Qed.

(** X10 -- [Userbookvehicle] tests the id by truthiness.  After any
    user-facing calls on a new manager it returns what [createBooking]
    returns (ids start at 1).  With the counter at 0, the booking is created
    and stored under id 0, yet [Userbookvehicle] prints "Booking failed",
    returns [None] and records nothing for the user. *)
Theorem Userbookvehicle_reports :
  (∀ cs user vehicle_name location,
     let f := facade_run cs new_Facade in
     (Userbookvehicle user vehicle_name location f).1
     = (createBooking user vehicle_name location (vehicle_book_rent_manager f)).1)
  ∧ (∀ user vehicle_name location f s',
       booking_counter (vehicle_book_rent_manager f) = 0 →
       createBooking user vehicle_name location (vehicle_book_rent_manager f)
       = (Some 0, s') →
       is_Some (booking_records s' !! 0)
       ∧ Userbookvehicle user vehicle_name location f
         = (None, mkFacade s' (user_bookings f) (stdout f ++ ["Booking failed"]))).
Proof.
  split.
  - intros cs user vehicle_name location f.
    assert (ids_sequential (vehicle_book_rent_manager f)) as (Hone & _).
    { unfold f. rewrite facade_run_system.
      apply run_ids_sequential, init_ids_sequential. }
    unfold Userbookvehicle.
    destruct (createBooking _ _ _ _) as [res s] eqn:Hc.
    apply createBooking_inv in Hc as [[-> ->]|(r & v & _ & _ & _ & _ & -> & ->)];
      [done|].
    destruct (Z.eqb_spec (booking_counter (vehicle_book_rent_manager f)) 0); [lia|done].
  - intros user vehicle_name location f s' Hzero Hc. split.
    + apply createBooking_inv in Hc as [[? _]|(r & v & _ & _ & _ & _ & _ & ->)]; [done|].
      simpl. rewrite Hzero, lookup_insert_eq. by eexists.
    + unfold Userbookvehicle. by rewrite Hc.
Qed.

(** *** The further theorems at the script's inputs *)

Lemma plates_distinct_singleton location s r :
  getVehicles location s = [r] → plates_distinct_at location s.
Proof.
  intros Hl r1 r2 v1 v2 H1 H2 _ _ _. rewrite Hl in H1, H2.
  apply list_elem_of_singleton in H1, H2. congruence.
Qed.

Lemma vehicles_never_removed_script :
  ∃ v', objects (run [CreateBooking prateek "Car" "Bangalore"; RentVehicle 1]
                   (run script_vehicles init)) !! 0%nat = Some v'
        ∧ same_vehicle (Vehicle.mk "Car" "KA01" "Bangalore" true) v'.
Proof.
  destruct (vehicles_never_removed
              [CreateBooking prateek "Car" "Bangalore"; RentVehicle 1]
              (run script_vehicles init)) as [Hobj _].
  apply (Hobj 0%nat). reflexivity.
Defined.

Lemma booking_ids_script :
  2 = booking_counter (run script_rented init)
  ∧ booking_records (run script_rented init) !! 2 = None
  ∧ booking_counter
      (createBooking prateek "Bike" "Bangalore" (run script_rented init)).2
    = 2 + 1.
Proof.
  destruct (booking_ids_sequential script_rented prateek "Bike" "Bangalore")
    as [_ Hnext].
  apply (Hnext 2 (createBooking prateek "Bike" "Bangalore" (run script_rented init)).2).
  reflexivity.
Defined.

Lemma bookings_only_advance_script :
  ∃ b', booking_records (run (script_booked ++ [RentVehicle 1]) init) !! 1 = Some b'
    ∧ advanced (Booking.mk 1 "prateek" "Car" "KA01" "Bangalore" BOOKED) b'
    ∧ (BOOKED = COMPLETED
       → b' = Booking.mk 1 "prateek" "Car" "KA01" "Bangalore" BOOKED).
Proof.
  apply (bookings_only_advance script_booked [RentVehicle 1] 1
           (Booking.mk 1 "prateek" "Car" "KA01" "Bangalore" BOOKED)).
  reflexivity.
Defined.

Lemma createBooking_twice_single_car :
  ∃ s2 b1 b2,
    createBooking prateek "Car" "Bangalore"
      (createBooking prateek "Car" "Bangalore" (run single_car init)).2
    = (Some (1 + 1), s2)
    ∧ booking_records s2 !! 1 = Some b1
    ∧ booking_records s2 !! (1 + 1) = Some b2
    ∧ Booking.plate_number b2 = Booking.plate_number b1
    ∧ Booking.location b2 = Booking.location b1
    ∧ Booking.status b1 = BOOKED ∧ Booking.status b2 = BOOKED.
Proof.
  apply (createBooking_does_not_reserve prateek prateek "Car" "Bangalore"
           (run single_car init) 1). reflexivity.
Defined.

Lemma rentVehicle_excludes_double_booked :
  let s1 := (rentVehicle 1 (run double_booked init)).2 in
  rentVehicle 2 s1 = (false, s1).
Proof.
  intros s1.
  refine (proj1 (rentVehicle_excludes 1 2 (run double_booked init) s1
                   (Booking.mk 1 "prateek" "Car" "KA01" "Bangalore" BOOKED)
                   (Booking.mk 2 "prateek" "Car" "KA01" "Bangalore" BOOKED)
                   _ _ _ _ _ _ _)).
  - by apply (plates_distinct_singleton _ _ 0%nat).
  - reflexivity.
  - reflexivity.
  - done.
  - reflexivity.
  - reflexivity.
  - reflexivity.
Defined.

Lemma returnVehicle_succeeds_script :
  ∃ s', returnVehicle 1 (run script_rented init) = (true, s').
Proof.
  apply (returnVehicle_succeeds script_rented 1
           (Booking.mk 1 "prateek" "Car" "KA01" "Bangalore" RENTED));
    reflexivity.
Defined.

Lemma Userbookvehicle_zero_counter :
  is_Some (booking_records
             (createBooking prateek "Car" "Bangalore"
                (vehicle_book_rent_manager zero_counter)).2 !! 0)
  ∧ Userbookvehicle prateek "Car" "Bangalore" zero_counter
    = (None,
       mkFacade
         (createBooking prateek "Car" "Bangalore"
            (vehicle_book_rent_manager zero_counter)).2
         ∅ ["Booking failed"]).
Proof.
  destruct Userbookvehicle_reports as [_ Hzero].
  apply (Hzero prateek "Car" "Bangalore" zero_counter); reflexivity.
Defined.

End CarRentalFacts.

(** * Properties of ilovepdf/ilovepdf.py *)

Module ILovePdfFacts.
Import ILovePdf.

Section Manager.
Context {Page : Type} `{svc : !Service Page}.
Variable uuid4 : nat → string.
Variable user : User.t.

(** *** Running monadic code *)

Lemma bind_returns {A B} (m : M Page A) (k : A → M Page B) w a w1 :
  m w = (Returns a, w1) → (m ≫= k) w = k a w1.
Proof. intros Hm. unfold mbind, M_bind. by rewrite Hm. Qed.

Lemma try_except_returns {A} (body handler : M Page A) w a w1 :
  body w = (Returns a, w1) → try_except body handler w = (Returns a, w1).
Proof. intros Hm. unfold try_except. by rewrite Hm. Qed.

Lemma try_except_raises {A} (body handler : M Page A) w e w1 :
  body w = (Raises e, w1) → is_Exception e = true →
  try_except body handler w = handler w1.
Proof. intros Hm He. unfold try_except. by rewrite Hm, He. Qed.

Lemma try_except_escapes {A} (body handler : M Page A) w e w1 :
  body w = (Raises e, w1) → is_Exception e = false →
  try_except body handler w = (Raises e, w1).
Proof. intros Hm He. unfold try_except. by rewrite Hm, He. Qed.

Lemma bind_raises {A B} (m : M Page A) (k : A → M Page B) w e w1 :
  m w = (Raises e, w1) → (m ≫= k) w = (Raises e, w1).
Proof. intros Hm. unfold mbind, M_bind. by rewrite Hm. Qed.

Lemma attr_returns {A} (f : Operation.t Page → A) operation w op :
  op_objects w !! operation = Some op → attr f operation w = (Returns (f op), w).
Proof. intros Hop. unfold attr. by rewrite Hop. Qed.

Lemma mutate_returns f operation (w : World Page) op :
  op_objects w !! operation = Some op →
  mutate f operation w
  = (Returns (),
     mkWorld (uuid_draws w) (<[operation := f op]> (op_objects w))
       (operations w) (user_operations w)).
Proof. intros Hop. unfold mutate. by rewrite Hop. Qed.

Lemma new_Operation_returns op_type input_files (w : World Page) :
  UserPdfManager.new_Operation uuid4 user op_type input_files w
  = (Returns (length (op_objects w)),
     mkWorld (S (uuid_draws w))
       (op_objects w ++ [Operation.init (uuid4 (uuid_draws w)) user op_type input_files])
       (operations w) (user_operations w)).
Proof. reflexivity. Qed.

Lemma record_operation_returns operation (w : World Page) op :
  op_objects w !! operation = Some op →
  UserPdfManager._record_operation user operation w
  = (Returns (),
     mkWorld (uuid_draws w) (op_objects w)
       (<[Operation.id op := operation]> (operations w))
       (<[User.username user :=
            default [] (user_operations w !! User.username user) ++ [Operation.id op]]>
          (user_operations w))).
Proof.
  intros Hop. unfold UserPdfManager._record_operation, OperationRepository.save.
  erewrite bind_returns; [|by erewrite bind_returns; [|by apply attr_returns]].
  by erewrite bind_returns; [|by apply attr_returns].
Qed.


Lemma begin_returns q (w : World Page) :
  (operation ← UserPdfManager.new_Operation uuid4 user (request_type q) (request_inputs q);
   UserPdfManager._record_operation user operation;;
   mret operation) w
  = (Returns (length (op_objects w)), recorded uuid4 user q w).
Proof.
  erewrite bind_returns; [|apply new_Operation_returns].
  erewrite bind_returns;
    [|apply record_operation_returns; simpl; by apply list_lookup_middle].
  done.
Qed.

(** The protected block of a method, from the world [recorded uuid4 user q w]:
    what the service raises is handled when it is an [Exception], and goes on
    to the caller otherwise, the operation left as it was recorded. *)
Lemma protected_outcome q (w : World Page) (g : Gen (PDFDocument.t Page)) :
  let operation := length (op_objects w) in
  let pending :=
    Operation.init (uuid4 (uuid_draws w)) user (request_type q) (request_inputs q) in
  try_except
    (result ← draw g; mutate (Operation.mark_completed result) operation)
    (mutate Operation.mark_failed operation) (recorded uuid4 user q w)
  = match g (S (uuid_draws w)) with
    | (Returns result, n) =>
        (Returns (),
         settled n operation (Operation.mark_completed result pending)
           (recorded uuid4 user q w))
    | (Raises e, n) =>
        if is_Exception e
        then (Returns (),
              settled n operation (Operation.mark_failed pending)
                (recorded uuid4 user q w))
        else (Raises e, settled n operation pending (recorded uuid4 user q w))
    end.
Proof.
  intros operation pending.
  assert (∀ n, op_objects (mkWorld n (op_objects (recorded uuid4 user q w))
                 (operations (recorded uuid4 user q w)) (user_operations (recorded uuid4 user q w)))
               !! operation = Some pending) as Hop.
  { intros n. simpl. by apply list_lookup_middle. }
  destruct (g (S (uuid_draws w))) as [[result|e] n] eqn:Hg.
  - apply try_except_returns.
    erewrite bind_returns; [|unfold draw; simpl; by rewrite Hg].
    by rewrite (mutate_returns _ _ _ pending).
  - destruct (is_Exception e) eqn:He.
    + erewrite try_except_raises;
        [|apply bind_raises; unfold draw; simpl; by rewrite Hg|done].
      by rewrite (mutate_returns _ _ _ pending).
    + erewrite try_except_escapes;
        [|apply bind_raises; unfold draw; simpl; by rewrite Hg|done].
      unfold settled. by rewrite list_insert_id by apply (Hop 0).
Qed.

(** A request method, whole: the id is returned unless the service raised
    outside [Exception]. *)
Lemma perform_outcome q (w : World Page) :
  let operation := length (op_objects w) in
  let pending :=
    Operation.init (uuid4 (uuid_draws w)) user (request_type q) (request_inputs q) in
  perform uuid4 user q w
  = match request_service q (S (uuid_draws w)) with
    | (Returns result, n) =>
        (Returns (uuid4 (uuid_draws w)),
         settled n operation (Operation.mark_completed result pending)
           (recorded uuid4 user q w))
    | (Raises e, n) =>
        if is_Exception e
        then (Returns (uuid4 (uuid_draws w)),
              settled n operation (Operation.mark_failed pending)
                (recorded uuid4 user q w))
        else (Raises e, settled n operation pending (recorded uuid4 user q w))
    end.
Proof.
  intros operation pending.
  assert (∀ g : Gen (PDFDocument.t Page),
    (operation ← UserPdfManager.new_Operation uuid4 user (request_type q) (request_inputs q);
     UserPdfManager._record_operation user operation;;
     try_except
       (result ← draw g; mutate (Operation.mark_completed result) operation)
       (mutate Operation.mark_failed operation);;
     attr Operation.id operation) w
    = match g (S (uuid_draws w)) with
      | (Returns result, n) =>
          (Returns (uuid4 (uuid_draws w)),
           settled n operation (Operation.mark_completed result pending)
             (recorded uuid4 user q w))
      | (Raises e, n) =>
          if is_Exception e
          then (Returns (uuid4 (uuid_draws w)),
                settled n operation (Operation.mark_failed pending)
                  (recorded uuid4 user q w))
          else (Raises e, settled n operation pending (recorded uuid4 user q w))
      end) as Hmethod.
  { intros g.
    erewrite bind_returns; [|apply new_Operation_returns].
    erewrite bind_returns;
      [|apply record_operation_returns; simpl; by apply list_lookup_middle].
    pose proof (protected_outcome q w g) as Hprotected. simpl in Hprotected.
    destruct (g (S (uuid_draws w))) as [[result|e] n];
      [|destruct (is_Exception e)].
    - erewrite bind_returns; [|apply Hprotected].
      erewrite attr_returns;
        [|simpl; apply list_lookup_insert_eq; rewrite length_app; simpl; lia].
      done.
    - erewrite bind_returns; [|apply Hprotected].
      erewrite attr_returns;
        [|simpl; apply list_lookup_insert_eq; rewrite length_app; simpl; lia].
      done.
    - erewrite bind_raises; [|apply Hprotected]. done. }
  destruct q; apply Hmethod.
Qed.

(** The objects and the repository after a request: one more operation,
    stored under the id drawn for it; it is in a final status when the method
    returns, and PENDING when the service raised outside [Exception]. *)
Lemma perform_effect q (w : World Page) :
  ∃ final,
    op_objects (perform uuid4 user q w).2 = op_objects w ++ [final]
    ∧ operations (perform uuid4 user q w).2
      = <[uuid4 (uuid_draws w) := length (op_objects w)]> (operations w)
    ∧ ((∃ result, Operation.output_file final = Some result
                  ∧ Operation.status final = COMPLETED
                  ∧ (perform uuid4 user q w).1 = Returns (uuid4 (uuid_draws w)))
       ∨ (Operation.output_file final = None ∧ Operation.status final = FAILED
          ∧ (perform uuid4 user q w).1 = Returns (uuid4 (uuid_draws w)))
       ∨ (Operation.output_file final = None ∧ Operation.status final = PENDING
          ∧ ∃ e n, request_service q (S (uuid_draws w)) = (Raises e, n)
                   ∧ is_Exception e = false
                   ∧ (perform uuid4 user q w).1 = Raises e)).
Proof.
  rewrite perform_outcome.
  destruct (request_service q (S (uuid_draws w))) as [[result|e] n];
    [|destruct (is_Exception e) eqn:He]; simpl;
    eexists; (split_and!; [|done|]).
  - rewrite insert_app_r_alt, Nat.sub_diag by done. done.
  - left. by eexists.
  - rewrite insert_app_r_alt, Nat.sub_diag by done. done.
  - right; left. done.
  - rewrite insert_app_r_alt, Nat.sub_diag by done. done.
  - right; right. split_and!; [done..|]. by exists e, n.
Qed.

(** C7 -- Each of [merge_pdf], [compress_pdf] and [add_watermark]
    ([perform q]) first constructs its operation with status PENDING and no
    output and records it in the repository under the id drawn for it; then
    it calls the service method.  When the call returns a document the
    operation ends COMPLETED with that document as output and the method
    returns the operation's id; when the call raises an instance of
    [Exception], the operation ends FAILED with no output, the fault goes no
    further and the method returns the operation's id as well.  What the call
    raises outside [Exception] (SystemExit, KeyboardInterrupt, GeneratorExit)
    is not caught by [except Exception]: the method raises it in turn and the
    operation stays PENDING in the repository.  So the method returns the id
    in every case but that one. *)
Theorem perform_isolates_faults q (w : World Page) :
  let id := uuid4 (uuid_draws w) in
  let operation := length (op_objects w) in
  let username := User.username user in
  let w1 := recorded uuid4 user q w in
  (operation ←
     UserPdfManager.new_Operation uuid4 user (request_type q) (request_inputs q);
   UserPdfManager._record_operation user operation;;
   mret operation) w
  = (Returns operation, w1)
  ∧ stored id w1
    = Some (Operation.mk id username (request_type q) (request_inputs q) None PENDING)
  ∧ (∀ result n,
       request_service q (uuid_draws w1) = (Returns result, n) →
       perform uuid4 user q w
       = (Returns id,
          settled n operation
            (Operation.mk id username (request_type q) (request_inputs q)
               (Some result) COMPLETED) w1))
  ∧ (∀ e n,
       request_service q (uuid_draws w1) = (Raises e, n) →
       is_Exception e = true →
       perform uuid4 user q w
       = (Returns id,
          settled n operation
            (Operation.mk id username (request_type q) (request_inputs q)
               None FAILED) w1))
  ∧ (∀ e n,
       request_service q (uuid_draws w1) = (Raises e, n) →
       is_Exception e = false →
       perform uuid4 user q w
       = (Raises e,
          settled n operation
            (Operation.mk id username (request_type q) (request_inputs q)
               None PENDING) w1))
  ∧ ((∃ w', perform uuid4 user q w = (Returns id, w'))
     ∨ (∃ e n, request_service q (uuid_draws w1) = (Raises e, n)
               ∧ is_Exception e = false)).
Proof.
  intros id operation username w1. split_and!.
  - apply begin_returns.
  - unfold stored, OperationRepository.get, w1, recorded. simpl.
    rewrite lookup_insert_eq. by apply list_lookup_middle.
  - intros result n Hsvc. rewrite perform_outcome.
    change (S (uuid_draws w)) with (uuid_draws w1). by rewrite Hsvc.
  - intros e n Hsvc He. rewrite perform_outcome.
    change (S (uuid_draws w)) with (uuid_draws w1). by rewrite Hsvc, He.
  - intros e n Hsvc He. rewrite perform_outcome.
    change (S (uuid_draws w)) with (uuid_draws w1). by rewrite Hsvc, He.
  - rewrite perform_outcome.
    change (S (uuid_draws w)) with (uuid_draws w1).
    destruct (request_service q (uuid_draws w1)) as [[result|e] n];
      [|destruct (is_Exception e) eqn:He].
    + left. by eexists.
    + left. by eexists.
    + right. by exists e, n.
Qed.

(** A COMPLETED operation's output is what [download_result] returns. *)
Lemma download_result_of_completed operation_id (w : World Page) op :
  stored operation_id w = Some op →
  Operation.status op = COMPLETED →
  UserPdfManager.download_result operation_id w = Operation.output_file op.
Proof.
  unfold UserPdfManager.download_result, stored.
  destruct (OperationRepository.get operation_id w) as [operation|]; [|done].
  intros -> ->. done.
Qed.

(** C8 -- [download_result] returns a document exactly when the repository
    holds an operation under the id, that operation is COMPLETED, and the
    document is its [output_file].  For an operation that is PENDING or
    FAILED, and for an id the repository does not hold, it returns the same
    [None]. *)
Theorem download_result_completed_only operation_id (w : World Page) :
  (∀ document,
     UserPdfManager.download_result operation_id w = Some document
     ↔ ∃ op, stored operation_id w = Some op
         ∧ Operation.status op = COMPLETED
         ∧ Operation.output_file op = Some document)
  ∧ (∀ op, stored operation_id w = Some op →
       Operation.status op = COMPLETED →
       UserPdfManager.download_result operation_id w = Operation.output_file op)
  ∧ (∀ op, stored operation_id w = Some op →
       Operation.status op = PENDING ∨ Operation.status op = FAILED →
       UserPdfManager.download_result operation_id w = None)
  ∧ (stored operation_id w = None →
     UserPdfManager.download_result operation_id w = None).
Proof.
  unfold UserPdfManager.download_result, stored.
  destruct (OperationRepository.get operation_id w) as [operation|].
  2: { split_and!; [|done..]. intros document. split; [done|]. by intros (op & ? & _). }
  destruct (op_objects w !! operation) as [op|].
  2: { split_and!; [|done..]. intros document. split; [done|]. by intros (op & ? & _). }
  split_and!.
  - intros document. split.
    + destruct (OperationStatus_eqb (Operation.status op) COMPLETED) eqn:Hst; [|done].
      intros Hout. exists op. split_and!; [done| |done].
      by destruct (Operation.status op).
    + intros (op' & [= <-] & -> & Hout). done.
  - intros op' [= <-] ->. done.
  - intros op' [= <-] [-> | ->]; done.
  - done.
Qed.

(** Outputs and COMPLETED go together along every call sequence, whatever
    the service does. *)
Lemma run_output_iff_completed cs (w : World Page) :
  output_iff_completed w → output_iff_completed (run uuid4 user cs w).
Proof.
  revert w. induction cs as [|c cs IH]; simpl; [done|].
  intros w Hout. destruct c as [q|id]; simpl; [|by apply IH].
  destruct (perform_effect q w) as (final & Hobjs & _ & Hfinal).
  apply IH.
  intros operation op. rewrite Hobjs.
  intros [[_ Hop]|[_ <-]]%lookup_snoc_Some; [by apply (Hout operation)|].
  destruct Hfinal as [(result & -> & -> & _)|[(-> & -> & _)|(-> & -> & _)]]; done.
Qed.

(** While the service raises inside [Exception] only, every operation is in a
    final status between calls. *)
Lemma run_all_settled cs (w : World Page) :
  raises_only_Exception → all_settled w → all_settled (run uuid4 user cs w).
Proof.
  intros Hsvc. revert w. induction cs as [|c cs IH]; simpl; [done|].
  intros w Hset. destruct c as [q|id]; simpl; [|by apply IH].
  destruct (perform_effect q w) as (final & Hobjs & _ & Hfinal).
  apply IH.
  intros operation op. rewrite Hobjs.
  intros [[_ Hop]|[_ <-]]%lookup_snoc_Some; [by apply (Hset operation)|].
  destruct Hfinal as [(result & _ & -> & _)|[(_ & -> & _)|(_ & _ & e & n & He & Hno & _)]];
    [done..|].
  apply Hsvc in He. by rewrite He in Hno.
Qed.

(** C9 -- In every world reached by calls of [merge_pdf], [compress_pdf],
    [add_watermark] and [download_result] on a new manager, every
    [Operation] object has an [output_file] if and only if its status is
    COMPLETED; an operation that is PENDING or FAILED has none. *)
Theorem output_file_iff_completed n cs :
  let w := run uuid4 user cs (new_world (Page := Page) n) in
  output_iff_completed w
  ∧ ∀ operation op,
      op_objects w !! operation = Some op →
      Operation.status op = PENDING ∨ Operation.status op = FAILED →
      Operation.output_file op = None.
Proof.
  intros w.
  assert (output_iff_completed w) as Hout.
  { apply run_output_iff_completed. intros operation op. simpl.
    by rewrite lookup_nil. }
  split; [done|].
  intros operation op Hop Hst.
  destruct (Operation.output_file op) as [document|] eqn:Hfile; [|done].
  assert (Operation.status op = COMPLETED) as Hc
    by (apply (Hout operation op Hop); by rewrite Hfile).
  rewrite Hc in Hst. by destruct Hst.
Qed.

(** C10 -- When a request method returns, what it returns is the id drawn
    for its operation, the repository holds an operation under that id and its
    status is COMPLETED or FAILED.  While the service raises instances of
    [Exception] only, every request method does return; then in every world
    reached by calls on a new manager no operation the repository holds is
    PENDING, and [download_result] answers [None] only for an unknown id or a
    FAILED operation. *)
Theorem no_pending_after_return :
  (∀ q (w : World Page) id w',
     perform uuid4 user q w = (Returns id, w') →
     id = uuid4 (uuid_draws w)
     ∧ ∃ op, stored id w' = Some op
             ∧ (Operation.status op = COMPLETED ∨ Operation.status op = FAILED))
  ∧ (raises_only_Exception →
     ∀ q (w : World Page),
       ∃ w', perform uuid4 user q w = (Returns (uuid4 (uuid_draws w)), w'))
  ∧ (raises_only_Exception →
     ∀ n cs operation_id op,
       stored operation_id (run uuid4 user cs (new_world (Page := Page) n)) = Some op →
       Operation.status op ≠ PENDING)
  ∧ (raises_only_Exception →
     ∀ n cs operation_id,
       let w := run uuid4 user cs (new_world (Page := Page) n) in
       UserPdfManager.download_result operation_id w = None →
       stored operation_id w = None
       ∨ ∃ op, stored operation_id w = Some op ∧ Operation.status op = FAILED).
Proof.
  assert (raises_only_Exception →
          ∀ n cs operation_id op,
            stored operation_id (run uuid4 user cs (new_world (Page := Page) n)) = Some op →
            Operation.status op ≠ PENDING
            ∧ (Operation.output_file op ≠ None ↔ Operation.status op = COMPLETED))
    as Hreach.
  { intros Hsvc n cs operation_id op. unfold stored.
    destruct (OperationRepository.get _ _) as [operation|]; [|done].
    intros Hop. split.
    - apply (run_all_settled cs (new_world n) Hsvc) with operation; [|done].
      intros ? ?. simpl. by rewrite lookup_nil.
    - apply (run_output_iff_completed cs (new_world n)) with operation; [|done].
      intros ? ?. simpl. by rewrite lookup_nil. }
  split_and!.
  - intros q w id w' Hperform.
    destruct (perform_effect q w) as (final & Hobjs & Hops & Hfinal).
    rewrite Hperform in Hobjs, Hops, Hfinal. simpl in Hobjs, Hops, Hfinal.
    assert (id = uuid4 (uuid_draws w)
            ∧ (Operation.status final = COMPLETED ∨ Operation.status final = FAILED))
      as [-> Hst].
    { destruct Hfinal as [(result & _ & -> & [= ->])|[(_ & -> & [= ->])|(_ & _ & e & n & _ & _ & [=])]];
        auto. }
    split; [done|]. exists final. split; [|done].
    unfold stored, OperationRepository.get. rewrite Hops, lookup_insert_eq, Hobjs.
    by apply list_lookup_middle.
  - intros Hsvc q w. rewrite perform_outcome.
    destruct (request_service q (S (uuid_draws w))) as [[result|e] n] eqn:Hq.
    + by eexists.
    + apply Hsvc in Hq. rewrite Hq. by eexists.
  - intros Hsvc n cs operation_id op Hop. by apply (Hreach Hsvc n cs operation_id op).
  - intros Hsvc n cs operation_id w Hnone.
    destruct (stored operation_id w) as [op|] eqn:Hop; [right|by left].
    exists op. split; [done|].
    destruct (Hreach Hsvc n cs operation_id op Hop) as [Hpending Hout].
    destruct (Operation.status op) eqn:Hst; [done| |done].
    rewrite (download_result_of_completed operation_id w op Hop Hst) in Hnone.
    by apply Hout in Hnone.
Qed.

End Manager.

(** C6 -- [PDFService.merge] returns a new document (named "merged.pdf",
    with the id drawn for it) whose pages are the pages of the first document
    followed by the pages of the second, for all page lists; [compress] and
    [add_watermark] return the document they are given, whatever the page
    range. *)
Theorem PDFService_transformations {Page} (uuid4 : nat → string)
    (a b doc : PDFDocument.t Page) (page_range : option (nat * nat)) (n : nat) :
  (∃ merged,
     PDFService.merge uuid4 a b n = (Returns merged, S n)
     ∧ PDFDocument.pages merged = PDFDocument.pages a ++ PDFDocument.pages b
     ∧ PDFDocument.name merged = "merged.pdf"
     ∧ PDFDocument.id merged = uuid4 n)
  ∧ PDFService.compress doc n = (Returns doc, n)
  ∧ PDFService.add_watermark doc page_range n = (Returns doc, n)
  ∧ svc_compress (Service := PDFService.service uuid4) doc n = (Returns doc, n)
  ∧ svc_add_watermark (Service := PDFService.service uuid4) doc page_range n
    = (Returns doc, n).
Proof.
  split_and!; try reflexivity.
  exists (PDFDocument.mk (uuid4 n) "merged.pdf"
            (PDFDocument.pages a ++ PDFDocument.pages b)).
  by split_and!.
Qed.

(** *** The theorems at the script's inputs *)

(** The merged document of the script. *)
Lemma script_merge :
  PDFService.merge script_uuid4 file1 file2 4
  = (Returns (PDFDocument.mk "4" "merged.pdf" [1; 2; 3; 4; 5]), 5).
Proof. reflexivity. Qed.

Lemma perform_script :
  perform (svc := PDFService.service script_uuid4) script_uuid4 alex
    (MergePdf file1 file2) script_world
  = (Returns "3",
     settled 5 0
       (Operation.mk "3" "alex" MERGE [file1; file2]
          (Some (PDFDocument.mk "4" "merged.pdf" [1; 2; 3; 4; 5])) COMPLETED)
       (recorded script_uuid4 alex (MergePdf file1 file2) script_world))
  ∧ perform (svc := failing_service) script_uuid4 alex
      (CompressPdf file1) script_world
    = (Returns "3",
       settled 4 0 (Operation.mk "3" "alex" COMPRESS [file1] None FAILED)
         (recorded script_uuid4 alex (CompressPdf file1) script_world))
  ∧ perform (svc := exiting_service) script_uuid4 alex
      (CompressPdf file1) script_world
    = (Raises SystemExit,
       settled 4 0 (Operation.mk "3" "alex" COMPRESS [file1] None PENDING)
         (recorded script_uuid4 alex (CompressPdf file1) script_world)).
Proof.
  split_and!.
  - destruct (perform_isolates_faults (svc := PDFService.service script_uuid4)
                script_uuid4 alex (MergePdf file1 file2) script_world)
      as (_ & _ & Hcompleted & _).
    apply Hcompleted. reflexivity.
  - destruct (perform_isolates_faults (svc := failing_service)
                script_uuid4 alex (CompressPdf file1) script_world)
      as (_ & _ & _ & Hfailed & _).
    apply (Hfailed ValueError); reflexivity.
  - destruct (perform_isolates_faults (svc := exiting_service)
                script_uuid4 alex (CompressPdf file1) script_world)
      as (_ & _ & _ & _ & Hescapes & _).
    apply (Hescapes SystemExit); reflexivity.
Defined.

(** A service call that raises SystemExit: [compress_pdf] raises it in turn
    and returns no id, and the operation it recorded stays PENDING. *)
Lemma SystemExit_escapes_compress_pdf :
  let w := script_world in
  let outcome := perform (svc := exiting_service) script_uuid4 alex (CompressPdf file1) w in
  request_service (svc := exiting_service) (CompressPdf file1) (S (uuid_draws w))
  = (Raises SystemExit, 4)
  ∧ outcome.1 = Raises SystemExit
  ∧ (¬ ∃ id w', outcome = (Returns id, w'))
  ∧ stored "3" outcome.2
    = Some (Operation.mk "3" "alex" COMPRESS [file1] None PENDING).
Proof.
  intros w outcome. split_and!; [reflexivity..| |reflexivity].
  intros (id & w' & Hreturns). by apply (f_equal fst) in Hreturns.
Qed.

Lemma download_result_script :
  UserPdfManager.download_result "3"
    (run (svc := PDFService.service script_uuid4) script_uuid4 alex
       script_calls script_world)
  = Some (PDFDocument.mk "4" "merged.pdf" [1; 2; 3; 4; 5]).
Proof.
  destruct (download_result_completed_only "3"
              (run (svc := PDFService.service script_uuid4) script_uuid4 alex
                 script_calls script_world)) as (Hiff & _).
  apply Hiff.
  exists (Operation.mk "3" "alex" MERGE [file1; file2]
            (Some (PDFDocument.mk "4" "merged.pdf" [1; 2; 3; 4; 5])) COMPLETED).
  by split_and!.
Defined.

Lemma output_file_script :
  let w := run (svc := failing_service) script_uuid4 alex
             [Perform (CompressPdf file1)] script_world in
  let op := Operation.mk "3" "alex" COMPRESS [file1] None FAILED in
  op_objects w !! 0 = Some op
  ∧ (Operation.status op = PENDING ∨ Operation.status op = FAILED)
  ∧ Operation.output_file op = None.
Proof.
  intros w op.
  assert (op_objects w !! 0 = Some op) as Hop by reflexivity.
  assert (Operation.status op = PENDING ∨ Operation.status op = FAILED) as Hst
    by (by right).
  split_and!; [done..|].
  destruct (output_file_iff_completed (svc := failing_service) script_uuid4 alex
              3 [Perform (CompressPdf file1)]) as [_ Hnone].
  exact (Hnone 0 op Hop Hst).
Defined.

(** [PDFService] raises nothing. *)
Lemma PDFService_raises_nothing {Page} (uuid4 : nat → string) :
  raises_only_Exception (Page := Page) (svc := PDFService.service uuid4).
Proof. intros [a b|doc|doc page_range] n e n' Hq; discriminate Hq. Qed.

Lemma no_pending_script :
  let w := run (svc := PDFService.service script_uuid4) script_uuid4 alex
             script_calls script_world in
  let op := Operation.mk "3" "alex" MERGE [file1; file2]
              (Some (PDFDocument.mk "4" "merged.pdf" [1; 2; 3; 4; 5])) COMPLETED in
  raises_only_Exception (Page := nat) (svc := PDFService.service script_uuid4)
  ∧ stored "3" w = Some op ∧ Operation.status op ≠ PENDING.
Proof.
  intros w op.
  assert (stored "3" w = Some op) as Hop by reflexivity.
  split_and!; [apply PDFService_raises_nothing|done|].
  destruct (no_pending_after_return (Page := nat)
              (svc := PDFService.service script_uuid4) script_uuid4 alex)
    as (_ & _ & Hreach & _).
  exact (Hreach (PDFService_raises_nothing script_uuid4) 3 script_calls "3" op Hop).
Defined.

(** After a service call that raised SystemExit, the repository holds a
    PENDING operation, and [download_result] answers [None] for it. *)
Lemma SystemExit_leaves_pending :
  let w := run (svc := exiting_service) script_uuid4 alex
             [Perform (CompressPdf file1)] script_world in
  let op := Operation.mk "3" "alex" COMPRESS [file1] None PENDING in
  stored "3" w = Some op
  ∧ Operation.status op = PENDING
  ∧ UserPdfManager.download_result "3" w = None
  ∧ ¬ (stored "3" w = None
       ∨ ∃ op', stored "3" w = Some op' ∧ Operation.status op' = FAILED).
Proof.
  intros w op. split_and!; [reflexivity..|].
  intros [Hnone|(op' & Hop' & Hfailed)]; [discriminate Hnone|].
  assert (stored "3" w = Some op) as Hop by reflexivity.
  rewrite Hop in Hop'. injection Hop' as <-. discriminate Hfailed.
Qed.

(** *** File storage *)

Section Files.
Context {File : Type}.
Variable uuid4 : nat → string.
Variable user : User.t.

Lemma upload_file_effect (file_obj : File) fs :
  UserFileManager.upload_file uuid4 user file_obj fs
  = (uuid4 (files_draws fs),
     mkFiles (S (files_draws fs))
       (<[uuid4 (files_draws fs) := file_obj]> (storage fs))
       (<[User.username user :=
            default [] (user_files fs !! User.username user) ++ [uuid4 (files_draws fs)]]>
          (user_files fs))).
Proof. reflexivity. Qed.

(** A file stored under an id already drawn survives a call, when draws
    never repeat. *)
Lemma files_step_keeps c (fs : Files File) k file_obj :
  Inj (=) (=) uuid4 →
  k < files_draws fs → storage fs !! uuid4 k = Some file_obj →
  k < files_draws (files_step uuid4 user c fs)
  ∧ storage (files_step uuid4 user c fs) !! uuid4 k = Some file_obj.
Proof.
  intros Hinj Hk Hstored. destruct c as [g|id|]; simpl; [|done|split; [lia|done]].
  split; [lia|]. rewrite lookup_insert_ne; [done|].
  intros Heq%Hinj. lia.
Qed.

Lemma files_run_keeps cs (fs : Files File) k file_obj :
  Inj (=) (=) uuid4 →
  k < files_draws fs → storage fs !! uuid4 k = Some file_obj →
  k < files_draws (files_run uuid4 user cs fs)
  ∧ storage (files_run uuid4 user cs fs) !! uuid4 k = Some file_obj.
Proof.
  intros Hinj. revert fs. induction cs as [|c cs IH]; simpl; [done|].
  intros fs Hk Hstored.
  destruct (files_step_keeps c fs k file_obj Hinj Hk Hstored) as [Hk' Hstored'].
  by apply IH.
Qed.

(** X11 -- When [uuid4] never repeats a value, a file uploaded through
    [upload_file] is returned by [download_file] under the id [upload_file]
    gave, whatever uploads, downloads and draws follow.  [upload] does not
    look at the id it draws: if a draw repeats the previous one, the second
    upload gets the same id and replaces the first file. *)
Theorem uploaded_file_stays :
  (Inj (=) (=) uuid4 →
   ∀ (file_obj : File) fs cs,
     let '(file_id, fs') := UserFileManager.upload_file uuid4 user file_obj fs in
     UserFileManager.download_file file_id (files_run uuid4 user cs fs')
     = Some file_obj)
  ∧ (∀ (first second : File) fs,
       uuid4 (S (files_draws fs)) = uuid4 (files_draws fs) →
       let '(id1, fs1) := UserFileManager.upload_file uuid4 user first fs in
       let '(id2, fs2) := UserFileManager.upload_file uuid4 user second fs1 in
       id2 = id1 ∧ UserFileManager.download_file id1 fs2 = Some second).
Proof.
  split.
  - intros Hinj file_obj fs cs. rewrite upload_file_effect.
    unfold UserFileManager.download_file, FileManager.download.
    apply files_run_keeps; simpl; [done|lia|apply lookup_insert_eq].
  - intros first second fs Hsame. rewrite !upload_file_effect. simpl.
    split; [done|].
    unfold UserFileManager.download_file, FileManager.download. simpl.
    rewrite Hsame. apply lookup_insert_eq.
Qed.

(** The ids recorded for the user, paired with the files uploaded. *)
Lemma files_run_recorded cs (fs : Files File) ids files :
  Inj (=) (=) uuid4 →
  default [] (user_files fs !! User.username user) = ids →
  Forall2 (λ id file_obj, ∃ k, k < files_draws fs ∧ id = uuid4 k
                                ∧ storage fs !! id = Some file_obj) ids files →
  let fs' := files_run uuid4 user cs fs in
  Forall2 (λ id file_obj, UserFileManager.download_file id fs' = Some file_obj)
    (default [] (user_files fs' !! User.username user))
    (files ++ uploaded cs).
Proof.
  intros Hinj. revert fs ids files.
  induction cs as [|c cs IH]; intros fs ids files Hids Hall; simpl.
  - rewrite app_nil_r, Hids.
    eapply Forall2_impl; [exact Hall|]. by intros id f (k & _ & _ & ?).
  - destruct c as [g|id|].
    + rewrite cons_middle, (assoc_L (++) files [g] (uploaded cs)).
      eapply IH; [done|].
      simpl. rewrite lookup_insert_eq. simpl. rewrite Hids.
      apply Forall2_app.
      * eapply Forall2_impl; [exact Hall|].
        intros id f (k & Hk & -> & Hf). exists k. split_and!; [lia|done|].
        rewrite lookup_insert_ne; [done|]. intros Heq%Hinj. lia.
      * constructor; [|done].
        exists (files_draws fs). split_and!; [lia|done|apply lookup_insert_eq].
    + by eapply IH.
    + eapply IH; [done|]. simpl.
      eapply Forall2_impl; [exact Hall|].
      intros id' f (k & Hk & -> & Hf). exists k. split_and!; [lia|done..].
Qed.

(** X12 -- When [uuid4] never repeats a value, after any calls on a new file
    manager the ids recorded in [user_files] for the user are, in order, the
    ids of the files uploaded, and [download_file] on each returns the file
    uploaded under it. *)
Theorem user_files_round_trip n cs :
  Inj (=) (=) uuid4 →
  let fs := files_run uuid4 user cs (new_Files (File := File) n) in
  Forall2 (λ id file_obj, UserFileManager.download_file id fs = Some file_obj)
    (default [] (user_files fs !! User.username user))
    (uploaded cs).
Proof.
  intros Hinj.
  apply (files_run_recorded cs (new_Files n) [] []); [done|done|done].
Qed.
End Files.

(** *** The manager over time *)

Section ManagerOverTime.
Context {Page : Type} `{svc : !Service Page}.
Variable uuid4 : nat → string.
Variable user : User.t.

(** Everything a request changes. *)
Lemma perform_changes q (w : World Page) :
  let id := uuid4 (uuid_draws w) in
  let username := User.username user in
  let w' := (perform uuid4 user q w).2 in
  ∃ final,
    op_objects w' = op_objects w ++ [final]
    ∧ operations w' = <[id := length (op_objects w)]> (operations w)
    ∧ user_operations w'
      = <[username := default [] (user_operations w !! username) ++ [id]]>
          (user_operations w)
    ∧ uuid_draws w' = (request_service q (S (uuid_draws w))).2
    ∧ Operation.id final = id
    ∧ Operation.user final = username
    ∧ match (request_service q (S (uuid_draws w))).1 with
      | Returns result =>
          Operation.output_file final = Some result
          ∧ Operation.status final = COMPLETED
      | Raises e =>
          Operation.output_file final = None
          ∧ Operation.status final = if is_Exception e then FAILED else PENDING
      end.
Proof.
  intros id username w'. unfold w'. rewrite perform_outcome.
  set (pending :=
    Operation.init (uuid4 (uuid_draws w)) user (request_type q) (request_inputs q)).
  destruct (request_service q (S (uuid_draws w))) as [[result|e] n]; simpl;
    [|destruct (is_Exception e)]; simpl.
  - exists (Operation.mark_completed result pending).
    split_and!; try done. by rewrite insert_app_r_alt, Nat.sub_diag.
  - exists (Operation.mark_failed pending).
    split_and!; try done. by rewrite insert_app_r_alt, Nat.sub_diag.
  - exists pending.
    split_and!; try done. by rewrite insert_app_r_alt, Nat.sub_diag.
Qed.

Lemma download_after_perform q (w : World Page) :
  UserPdfManager.download_result (uuid4 (uuid_draws w)) (perform uuid4 user q w).2
  = match (request_service q (S (uuid_draws w))).1 with
    | Returns result => Some result
    | Raises _ => None
    end.
Proof.
  destruct (perform_changes q w) as (final & Hobjs & Hops & _ & _ & _ & _ & Hfinal).
  unfold UserPdfManager.download_result, OperationRepository.get.
  rewrite Hops, lookup_insert_eq, Hobjs, list_lookup_middle by done.
  destruct ((request_service q (S (uuid_draws w))).1) as [result|e];
    destruct Hfinal as [-> ->]; [done|].
  by destruct (is_Exception e).
Qed.

(** X13 -- A request followed by [download_result] on the id drawn for its
    operation.  When the service call returns a document, the request returns
    that id and [download_result] returns the document.  When the service call
    raises an instance of [Exception], the request returns that id and
    [download_result] returns [None].  When the service call raises outside
    [Exception], the request raises the same and returns no id; the operation
    is stored all the same, and [download_result] on its id returns [None]. *)
Theorem download_result_after_request q (w : World Page) :
  let id := uuid4 (uuid_draws w) in
  (∀ result n,
     request_service q (S (uuid_draws w)) = (Returns result, n) →
     (perform uuid4 user q w).1 = Returns id
     ∧ UserPdfManager.download_result id (perform uuid4 user q w).2 = Some result)
  ∧ (∀ e n,
       request_service q (S (uuid_draws w)) = (Raises e, n) →
       is_Exception e = true →
       (perform uuid4 user q w).1 = Returns id
       ∧ UserPdfManager.download_result id (perform uuid4 user q w).2 = None)
  ∧ (∀ e n,
       request_service q (S (uuid_draws w)) = (Raises e, n) →
       is_Exception e = false →
       (perform uuid4 user q w).1 = Raises e
       ∧ (∃ op, stored id (perform uuid4 user q w).2 = Some op
                ∧ Operation.status op = PENDING)
       ∧ UserPdfManager.download_result id (perform uuid4 user q w).2 = None).
Proof.
  intros id. pose proof (download_after_perform q w) as Hdl.
  split_and!.
  - intros result n Hsvc. unfold id. split; [|by rewrite Hdl, Hsvc].
    by rewrite perform_outcome, Hsvc.
  - intros e n Hsvc He. unfold id. split; [|by rewrite Hdl, Hsvc].
    by rewrite perform_outcome, Hsvc, He.
  - intros e n Hsvc He. unfold id. split_and!; [| |by rewrite Hdl, Hsvc].
    + by rewrite perform_outcome, Hsvc, He.
    + destruct (perform_changes q w) as (final & Hobjs & Hops & _ & _ & _ & _ & Hfinal).
      rewrite Hsvc in Hfinal. simpl in Hfinal. rewrite He in Hfinal.
      exists final. split; [|by destruct Hfinal].
      unfold stored, OperationRepository.get.
      rewrite Hops, lookup_insert_eq, Hobjs. by apply list_lookup_middle.
Qed.

Lemma step_objects c (w : World Page) :
  op_objects w `prefix_of` op_objects (step uuid4 user c w)
  ∧ length (op_objects (step uuid4 user c w))
    = length (op_objects w) + requests [c].
Proof.
  destruct c as [q|id]; simpl; [|split; [done|lia]].
  destruct (perform_changes q w) as (final & -> & _).
  split; [by apply prefix_app_r|]. rewrite length_app. simpl. lia.
Qed.

(** X14 -- Operation objects are never changed or dropped by later calls:
    the operations of a world are an initial segment of the operations after
    any further calls, and each request adds exactly one. *)
Theorem operations_append_only cs (w : World Page) :
  op_objects w `prefix_of` op_objects (run uuid4 user cs w)
  ∧ length (op_objects (run uuid4 user cs w)) = length (op_objects w) + requests cs.
Proof.
  revert w. induction cs as [|c cs IH]; intros w; simpl; [split; [done|lia]|].
  destruct (IH (step uuid4 user c w)) as [Hpre Hlen].
  destruct (step_objects c w) as [Hpre1 Hlen1].
  split; [by etrans|]. rewrite Hlen, Hlen1. destruct c; simpl; lia.
Qed.


Lemma step_operations_listed c (w : World Page) :
  operations_listed user w → operations_listed user (step uuid4 user c w).
Proof.
  intros (Hlist & Hothers & Hall). destruct c as [q|id]; simpl; [|done].
  destruct (perform_changes q w) as (final & Hobjs & _ & Huser & _ & Hid & Hu & _).
  split_and!.
  - rewrite Huser, lookup_insert_eq, Hobjs, fmap_app, Hlist. simpl. by rewrite Hid.
  - intros username Hne. rewrite Huser, lookup_insert_ne by done. by apply Hothers.
  - rewrite Hobjs. apply Forall_app. split; [done|]. by apply Forall_singleton.
Qed.

(** X15 -- After any calls on a new manager, [user_operations] has a single
    entry, for the manager's user, listing the ids of all operations in the
    order of the requests; every operation carries that username. *)
Theorem user_operations_in_order n cs :
  operations_listed user (run uuid4 user cs (new_world (Page := Page) n)).
Proof.
  assert (∀ w : World Page, operations_listed user w →
            operations_listed user (run uuid4 user cs w)) as Hrun.
  { induction cs as [|c cs IH]; simpl; [done|].
    intros w Hw. by apply IH, step_operations_listed. }
  apply Hrun. split_and!; simpl; [by rewrite lookup_empty| |done].
  intros username _. apply lookup_empty.
Qed.

(** What the repository keeps when draws never repeat and the service only
    draws: each operation sits under its id, an id drawn earlier. *)
Lemma step_repository c (w : World Page) :
  Inj (=) (=) uuid4 → draws_forward →
  (∀ operation op, op_objects w !! operation = Some op →
     ∃ k, k < uuid_draws w ∧ Operation.id op = uuid4 k
          ∧ operations w !! Operation.id op = Some operation) →
  (∀ operation op, op_objects (step uuid4 user c w) !! operation = Some op →
     ∃ k, k < uuid_draws (step uuid4 user c w) ∧ Operation.id op = uuid4 k
          ∧ operations (step uuid4 user c w) !! Operation.id op = Some operation).
Proof.
  intros Hinj Hforward Hrepo. destruct c as [q|id]; simpl; [|done].
  destruct (perform_changes q w) as (final & Hobjs & Hops & _ & Hdraws & Hid & _).
  pose proof (Hforward q (S (uuid_draws w))) as Hle.
  intros operation op. rewrite Hobjs, Hops, Hdraws.
  intros [[_ Hop]|[-> <-]]%lookup_snoc_Some.
  - destruct (Hrepo operation op Hop) as (k & Hk & Hidk & Hstored).
    exists k. split_and!; [lia|done|].
    rewrite lookup_insert_ne; [done|]. rewrite Hidk. intros Heq%Hinj. lia.
  - exists (uuid_draws w). split_and!; [lia|done|].
    rewrite Hid. apply lookup_insert_eq.
Qed.

Lemma step_repository_keys c (w : World Page) :
  (∀ operation_id operation, operations w !! operation_id = Some operation →
     ∃ op, op_objects w !! operation = Some op ∧ Operation.id op = operation_id) →
  (∀ operation_id operation,
     operations (step uuid4 user c w) !! operation_id = Some operation →
     ∃ op, op_objects (step uuid4 user c w) !! operation = Some op
           ∧ Operation.id op = operation_id).
Proof.
  intros Hkeys. destruct c as [q|id]; simpl; [|done].
  destruct (perform_changes q w) as (final & Hobjs & Hops & _ & _ & Hid & _).
  intros operation_id operation. rewrite Hops, Hobjs.
  intros [[<- <-]|[_ Hentry]]%lookup_insert_Some.
  - exists final. split; [by apply list_lookup_middle|done].
  - destruct (Hkeys operation_id operation Hentry) as (op & Hop & Hopid).
    exists op. split; [|done].
    rewrite lookup_app_l; [done|]. by eapply lookup_lt_Some.
Qed.

(** X16 -- When [uuid4] never repeats a value and the service only draws,
    after any calls on a new manager the repository holds every operation
    under its own id and nothing else: no operation was overwritten. *)
Theorem repository_holds_every_operation n cs :
  Inj (=) (=) uuid4 → draws_forward →
  repository_exact (run uuid4 user cs (new_world (Page := Page) n)).
Proof.
  intros Hinj Hforward.
  assert (∀ w : World Page,
    (∀ operation op, op_objects w !! operation = Some op →
       ∃ k, k < uuid_draws w ∧ Operation.id op = uuid4 k
            ∧ operations w !! Operation.id op = Some operation) →
    (∀ operation_id operation, operations w !! operation_id = Some operation →
       ∃ op, op_objects w !! operation = Some op ∧ Operation.id op = operation_id) →
    repository_exact (run uuid4 user cs w)) as Hrun.
  { induction cs as [|c cs IH]; simpl; intros w Hrepo Hkeys.
    - split.
      + intros operation op Hop. unfold stored, OperationRepository.get.
        destruct (Hrepo operation op Hop) as (k & _ & _ & ->). done.
      + intros operation_id op. unfold stored, OperationRepository.get.
        destruct (operations w !! operation_id) as [operation|] eqn:Hentry; [|done].
        destruct (Hkeys operation_id operation Hentry) as (op' & -> & <-).
        by intros [= <-].
    - apply IH; [by apply step_repository|by apply step_repository_keys]. }
  apply Hrun; simpl.
  - intros operation op. by rewrite lookup_nil.
  - intros operation_id operation. by rewrite lookup_empty.
Qed.
End ManagerOverTime.

(** *** The manager over [PDFService] *)

Lemma PDFService_draws_forward {Page} (uuid4 : nat → string) :
  draws_forward (Page := Page) (svc := PDFService.service uuid4).
Proof. intros [a b|pdf|pdf range] n; simpl; lia. Qed.

(** X17 -- With [PDFService], in any world: [download_result] on the id
    [merge_pdf] returns gives a document whose pages are the first
    document's followed by the second's; on the id [compress_pdf] or
    [add_watermark] returns it gives back the document passed in. *)
Theorem download_result_after_PDFService {Page} (uuid4 : nat → string)
    (user : User.t) (w : World Page) :
  (∀ a b,
     ∃ id w' merged,
       UserPdfManager.merge_pdf (svc := PDFService.service uuid4) uuid4 user a b w
       = (Returns id, w')
       ∧ UserPdfManager.download_result id w' = Some merged
       ∧ PDFDocument.pages merged = PDFDocument.pages a ++ PDFDocument.pages b)
  ∧ (∀ pdf,
       ∃ id w',
         UserPdfManager.compress_pdf (svc := PDFService.service uuid4) uuid4 user pdf w
         = (Returns id, w')
         ∧ UserPdfManager.download_result id w' = Some pdf)
  ∧ (∀ pdf page_range,
       ∃ id w',
         UserPdfManager.add_watermark (svc := PDFService.service uuid4) uuid4 user
           pdf page_range w
         = (Returns id, w')
         ∧ UserPdfManager.download_result id w' = Some pdf).
Proof.
  split_and!.
  - intros a b.
    pose proof (download_after_perform (svc := PDFService.service uuid4)
                  uuid4 user (MergePdf a b) w) as Hdl.
    pose proof (perform_outcome (svc := PDFService.service uuid4)
                  uuid4 user (MergePdf a b) w) as Hret.
    simpl in Hdl, Hret.
    destruct (UserPdfManager.merge_pdf _ _ _ _ _) as [outcome w'].
    injection Hret as -> _. eexists _, _, _. split_and!; [done|exact Hdl|done].
  - intros pdf.
    pose proof (download_after_perform (svc := PDFService.service uuid4)
                  uuid4 user (CompressPdf pdf) w) as Hdl.
    pose proof (perform_outcome (svc := PDFService.service uuid4)
                  uuid4 user (CompressPdf pdf) w) as Hret.
    simpl in Hdl, Hret.
    destruct (UserPdfManager.compress_pdf _ _ _ _) as [outcome w'].
    injection Hret as -> _. eexists _, _. split; [done|exact Hdl].
  - intros pdf page_range.
    pose proof (download_after_perform (svc := PDFService.service uuid4)
                  uuid4 user (AddWatermark pdf page_range) w) as Hdl.
    pose proof (perform_outcome (svc := PDFService.service uuid4)
                  uuid4 user (AddWatermark pdf page_range) w) as Hret.
    simpl in Hdl, Hret.
    destruct (UserPdfManager.add_watermark _ _ _ _ _) as [outcome w'].
    injection Hret as -> _. eexists _, _. split; [done|exact Hdl].
Qed.

(** *** The further theorems at the script's inputs *)

Lemma script_uuid4_inj : Inj (=) (=) script_uuid4.
Proof. intros x y Heq. by apply (inj (pretty : nat → string)). Qed.

Lemma uploaded_file_stays_script :
  UserFileManager.download_file "2"
    (files_run script_uuid4 alex [UploadFile file2; Uuid4]
       (UserFileManager.upload_file script_uuid4 alex file1 (new_Files 2)).2)
  = Some file1.
Proof.
  destruct (uploaded_file_stays (File := PDFDocument.t nat) script_uuid4 alex)
    as [Hstays _].
  exact (Hstays script_uuid4_inj file1 (new_Files 2) [UploadFile file2; Uuid4]).
Defined.

Lemma user_files_round_trip_script :
  let fs := files_run script_uuid4 alex [UploadFile file1; Uuid4; UploadFile file2]
              (new_Files 2) in
  Forall2 (λ id file_obj, UserFileManager.download_file id fs = Some file_obj)
    (default [] (user_files fs !! "alex")) [file1; file2].
Proof.
  exact (user_files_round_trip script_uuid4 alex 2
           [UploadFile file1; Uuid4; UploadFile file2] script_uuid4_inj).
Defined.

Lemma download_result_after_failure :
  let failed := perform (svc := failing_service) script_uuid4 alex
                  (CompressPdf file1) script_world in
  let escaped := perform (svc := exiting_service) script_uuid4 alex
                   (CompressPdf file1) script_world in
  (failed.1 = Returns "3"
   ∧ UserPdfManager.download_result "3" failed.2 = None)
  ∧ (escaped.1 = Raises SystemExit
     ∧ (∃ op, stored "3" escaped.2 = Some op ∧ Operation.status op = PENDING)
     ∧ UserPdfManager.download_result "3" escaped.2 = None).
Proof.
  intros failed escaped. split.
  - destruct (download_result_after_request (svc := failing_service)
                script_uuid4 alex (CompressPdf file1) script_world)
      as (_ & Hraised & _).
    apply (Hraised ValueError 4); reflexivity.
  - destruct (download_result_after_request (svc := exiting_service)
                script_uuid4 alex (CompressPdf file1) script_world)
      as (_ & _ & Hescaped).
    apply (Hescaped SystemExit 4); reflexivity.
Defined.

Lemma repository_script :
  repository_exact
    (run (svc := PDFService.service script_uuid4) script_uuid4 alex
       (script_calls ++ [Perform (CompressPdf file2)]) script_world).
Proof.
  apply (repository_holds_every_operation
           (svc := PDFService.service script_uuid4) script_uuid4 alex).
  - exact script_uuid4_inj.
  - apply PDFService_draws_forward.
Defined.

End ILovePdfFacts.
